(** * Pak Buy Pro AI server: the hybrid title cleaner of [app.py]

    A shallow embedding of [src/app.py]: the regular expressions of
    [clean_title_with_regex] run on a backtracking matcher with the priorities
    of Python's [re] module, the [lru_cache] around the AI cleaner is an
    association list kept in recency order, and the request handlers are
    written in a state-and-exception monad over the process-wide state.

    What lies outside the process is given from outside: the flag
    [AI_ENABLED] set at start-up, the provider's answer to each completion,
    and the readings of [time.time()], taken as rationals. The log lines
    ([print]) are left out, except that the slices inside them ([title[:60]])
    are evaluated, since they can raise. *)

From Stdlib Require Import List String Ascii NArith ZArith QArith Bool Arith Lia.
Import ListNotations.

Set Implicit Arguments.
Set Warnings "-register-all".
Close Scope Q_scope.

(** ** Python strings

    A Python [str] is a sequence of Unicode code points. *)

Definition char := N.
Definition str := list char.
Bind Scope N_scope with char.

Fixpoint of_string (s : string) : str :=
  match s with
  | EmptyString => []
  | String a rest => N_of_ascii a :: of_string rest
  end.

Definition str_eqb (a b : str) : bool :=
  if list_eq_dec N.eq_dec a b then true else false.

(** [a <= c <= b] on code points. *)
Definition between (a b c : char) : bool := (a <=? c)%N && (c <=? b)%N.

(** [str.isspace] for one code point, which is also what [\s] matches in a
    [str] pattern: the ASCII controls 9-13 and 28-31, the space, and the
    Unicode separators. *)
Definition is_space (c : char) : bool :=
  between 9 13 c || between 28 32 c || (c =? 133)%N || (c =? 160)%N
  || (c =? 5760)%N || between 8192 8202 c || (c =? 8232)%N || (c =? 8233)%N
  || (c =? 8239)%N || (c =? 8287)%N || (c =? 12288)%N.

(** Digits, letters and word characters. The model is exact on ASCII; a code
    point above 127 is taken as no digit, no letter and no word character, and
    has no other case (Python's tables for those are not embedded). *)
Definition is_digit (c : char) : bool := between 48 57 c.
Definition is_upper (c : char) : bool := between 65 90 c.
Definition is_lower (c : char) : bool := between 97 122 c.
Definition is_word (c : char) : bool :=
  is_digit c || is_upper c || is_lower c || (c =? 95)%N.

Definition to_lower (c : char) : char := if is_upper c then (c + 32)%N else c.
Definition to_upper (c : char) : char := if is_lower c then (c - 32)%N else c.

(** [s.strip()] *)
Fixpoint lstrip (s : str) : str :=
  match s with
  | c :: rest => if is_space c then lstrip rest else s
  | [] => []
  end.

Definition rstrip (s : str) : str := rev (lstrip (rev s)).
Definition strip (s : str) : str := rstrip (lstrip s).

(** [s.replace(c, '')] for a one-character [c]. *)
Definition remove_char (c : char) (s : str) : str :=
  filter (fun x => negb (x =? c)%N) s.

(** [s in t] *)
Fixpoint is_prefix (p s : str) : bool :=
  match p, s with
  | [], _ => true
  | a :: p', b :: s' => (a =? b)%N && is_prefix p' s'
  | _ :: _, [] => false
  end.

Fixpoint contains (needle hay : str) : bool :=
  is_prefix needle hay ||
  match hay with
  | [] => false
  | _ :: tl => contains needle tl
  end.

(** ** Regular expressions of the [re] module *)

Module Re.

(** An item of a character set [[...]]. *)
Inductive citem :=
| CChar (c : char)
| CRange (lo hi : char)
| CSpace                                  (* \s *)
| CDigit.                                 (* \d *)

Inductive regex :=
| Eps
| Lit (c : char)
| Any                                     (* . without DOTALL *)
| Set_ (neg : bool) (items : list citem)  (* [...] and [^...] *)
| WordB                                   (* \b *)
| EndA                                    (* $ without MULTILINE *)
| Seq (a b : regex)
| Alt (a b : regex)
| Rep (lo : nat) (hi : option nat) (greedy : bool) (a : regex)
| Grp (n : nat) (a : regex).

Definition star := Rep 0 None true.
Definition plus := Rep 1 None true.
Definition plus_lazy := Rep 1 None false.
Definition opt := Rep 0 (Some 1) true.
Definition space := Set_ false [CSpace].
Definition digit := Set_ false [CDigit].

Fixpoint seqs (l : list regex) : regex :=
  match l with
  | [] => Eps
  | [r] => r
  | r :: rest => Seq r (seqs rest)
  end.

Fixpoint alts (l : list regex) : regex :=
  match l with
  | [] => Eps
  | [r] => r
  | r :: rest => Alt r (alts rest)
  end.

(** A run of literal characters. *)
Definition lit (s : string) : regex := seqs (map Lit (of_string s)).

Definition item_has (c : char) (i : citem) : bool :=
  match i with
  | CChar x => (x =? c)%N
  | CRange lo hi => between lo hi c
  | CSpace => is_space c
  | CDigit => is_digit c
  end.

Definition set_has (items : list citem) (c : char) : bool :=
  existsb (item_has c) items.

(** Under [re.IGNORECASE] a character is tried in both cases. *)
Definition lit_matches (ic : bool) (x c : char) : bool :=
  if ic then (to_lower x =? to_lower c)%N else (x =? c)%N.

Definition set_matches (ic : bool) (neg : bool) (items : list citem) (c : char) : bool :=
  let inside :=
    if ic then set_has items (to_lower c) || set_has items (to_upper c)
    else set_has items c in
  if neg then negb inside else inside.

(** The matcher's position: the text before it (reversed), the text after
    it, its index, and the groups captured so far (latest first). *)
Record mstate := MState {
  before : str;
  after : str;
  pos : nat;
  groups : list (nat * str)
}.

Definition advance (st : mstate) (c : char) (tl : str) : mstate :=
  MState (c :: before st) tl (S (pos st)) (groups st).

Definition one_char (p : char -> bool) (st : mstate) (k : mstate -> option mstate)
  : option mstate :=
  match after st with
  | c :: tl => if p c then k (advance st c tl) else None
  | [] => None
  end.

Definition at_word_boundary (st : mstate) : bool :=
  let prev := match before st with c :: _ => is_word c | [] => false end in
  let next := match after st with c :: _ => is_word c | [] => false end in
  xorb prev next.

(** [$]: at the end, or before a newline that ends the text. *)
Definition at_end (st : mstate) : bool :=
  match after st with
  | [] => true
  | [c] => (c =? 10)%N
  | _ => false
  end.

Definition or_else {A} (x : option A) (y : option A) : option A :=
  match x with Some _ => x | None => y end.

Definition under (hi : option nat) (count : nat) : bool :=
  match hi with None => true | Some h => count <? h end.

(** The loop of a repeat [a{lo,hi}] whose body is run by [step], with
    continuation [k]: [count] iterations are done. Below the minimum the body
    must match again; from there on a greedy repeat tries the body before
    the continuation and a lazy one the continuation before the body. An
    iteration beyond the minimum that consumes nothing is not taken: the
    engine, too, ends a repeat there (and no pattern of the program repeats
    a body that can match the empty string). So [lo] plus the length of the
    text left is fuel enough, see [rep_loop_fuel]. *)
Section Repeat.

Variable step : mstate -> (mstate -> option mstate) -> option mstate.
Variables (lo : nat) (hi : option nat) (greedy : bool).
Variable k : mstate -> option mstate.

Fixpoint rep_loop (fuel : nat) (count : nat) (st : mstate) {struct fuel}
  : option mstate :=
  let body :=
    match fuel with
    | O => None
    | S fuel' =>
        if under hi count then
          step st (fun st' =>
            if (lo <=? count) && (pos st' =? pos st) then None
            else rep_loop fuel' (S count) st')
        else None
    end in
  if count <? lo then body
  else if greedy then or_else body (k st)
  else or_else (k st) body.

End Repeat.

(** Backtracking in continuation-passing style: [run ic r st k] matches [r]
    at [st] and hands the position reached to [k]; when [k] refuses, the
    next alternative of [r] is tried, in the order of Python's engine
    (left alternative first, a greedy repeat longest first, a lazy repeat
    shortest first). [ic] is [re.IGNORECASE]. *)
Fixpoint run (ic : bool) (r : regex) (st : mstate) (k : mstate -> option mstate)
  {struct r} : option mstate :=
  match r with
  | Eps => k st
  | Lit x => one_char (lit_matches ic x) st k
  | Any => one_char (fun c => negb (c =? 10)%N) st k
  | Set_ neg items => one_char (set_matches ic neg items) st k
  | WordB => if at_word_boundary st then k st else None
  | EndA => if at_end st then k st else None
  | Seq a b => run ic a st (fun st' => run ic b st' k)
  | Alt a b => or_else (run ic a st k) (run ic b st k)
  | Grp n a =>
      run ic a st (fun st' =>
        k (MState (before st') (after st') (pos st')
             ((n, firstn (pos st' - pos st) (after st)) :: groups st')))
  | Rep lo hi greedy a =>
      rep_loop (run ic a) lo hi greedy k (lo + List.length (after st)) 0 st
  end.

Definition group (n : nat) (st : mstate) : option str :=
  match find (fun g => fst g =? n) (groups st) with
  | Some g => Some (snd g)
  | None => None
  end.

(** A match anchored at a position; [must_advance] refuses the empty match. *)
Definition match_at (ic : bool) (r : regex) (must_advance : bool)
           (bef aft : str) (p : nat) : option mstate :=
  run ic r (MState bef aft p [])
      (fun st' => if must_advance && (pos st' =? p) then None else Some st').

(** [re.search]: the first position where the pattern matches. *)
Fixpoint search_from (ic : bool) (r : regex) (bef aft : str) (p : nat)
  : option (nat * mstate) :=
  match match_at ic r false bef aft p with
  | Some st' => Some (p, st')
  | None =>
      match aft with
      | [] => None
      | c :: tl => search_from ic r (c :: bef) tl (S p)
      end
  end.

Definition search (ic : bool) (r : regex) (s : str) : option (nat * mstate) :=
  search_from ic r [] s 0.

(** [re.sub(r, repl, s)] for a replacement without group references:
    [skip] characters still belong to the match being replaced. After an
    empty match the engine searches again from the same place for a match
    that advances, before it moves on. *)
Fixpoint sub_from (ic : bool) (r : regex) (repl : str) (bef aft : str) (p : nat)
         (skip : nat) : str :=
  let step_over :=
    match aft with
    | [] => []
    | c :: tl => c :: sub_from ic r repl (c :: bef) tl (S p) 0
    end in
  let replace_to (e : nat) :=
    match aft with
    | [] => repl
    | c :: tl => repl ++ sub_from ic r repl (c :: bef) tl (S p) (e - p - 1)
    end in
  match skip with
  | S n =>
      match aft with
      | [] => []
      | c :: tl => sub_from ic r repl (c :: bef) tl (S p) n
      end
  | O =>
      match match_at ic r false bef aft p with
      | None => step_over
      | Some st' =>
          if pos st' =? p then
            match match_at ic r true bef aft p with
            | Some st'' => repl ++ replace_to (pos st'')
            | None => repl ++ step_over
            end
          else replace_to (pos st')
      end
  end.

Definition sub (ic : bool) (r : regex) (repl : str) (s : str) : str :=
  sub_from ic r repl [] s 0 0.

End Re.

(** ** The Pattern Extractor: [clean_title_with_regex] *)

Import Re.

Definition rng (a b : ascii) : citem := CRange (N_of_ascii a) (N_of_ascii b).
Definition one_of (s : string) : regex := Set_ false (map CChar (of_string s)).

(** [garbage_patterns], in the order of the source; each is applied with
    [re.IGNORECASE]. *)
Definition garbage_patterns : list regex :=
  [ seqs [lit "PTA"; star space; lit "Approve"; opt (lit "d")];
    seqs [lit "Official"; star space; lit "Warranty"];
    seqs [lit "Fast"; star space; lit "Shipping"];
    seqs [lit "Cash"; star space; lit "on"; star space; lit "Delivery"];
    seqs [lit "Free"; star space; lit "Delivery"];
    seqs [lit "Installment"; opt (lit "s")];
    seqs [lit "Easy"; star space; lit "Payment"];
    lit "Original";
    lit "Authentic";
    seqs [WordB; lit "New"; WordB];
    seqs [WordB; lit "Sealed"; WordB];
    seqs [lit "In"; star space; lit "Stock"];
    lit "Available";
    seqs [lit "Limited"; star space; lit "Stock"];
    seqs [lit "Hot"; star space; lit "Deal"];
    lit "Sale";
    lit "Discount";
    seqs [plus digit; lit "%"; star space; lit "Off"];
    seqs [lit "Special"; star space; lit "Offer"];
    alts [Lit 8377%N; seqs [lit "Rs"; opt (lit ".")]; lit "PKR"];
    plus (Set_ false [CChar 11088%N; CChar 9733%N; CChar 10003%N; CChar 10004%N]);
    lit "|";
    Lit 8226%N ].

(** [\s+], [[|•\-_]+] and [\([^)]*\)] of the clean-up step. *)
Definition re_spaces : regex := plus space.
Definition re_separators : regex :=
  plus (Set_ false [CChar 124%N; CChar 8226%N; CChar 45%N; CChar 95%N]).
Definition re_parens : regex :=
  seqs [lit "("; star (Set_ true [CChar 41%N]); lit ")"].

Definition mobile_brands : list string :=
  ["Samsung"; "iPhone"; "Xiaomi"; "Oppo"; "Vivo"; "Realme"; "Infinix"; "Tecno";
   "OnePlus"; "Google"; "Nokia"; "Huawei"; "Motorola"]%string.

Definition laptop_brands : list string :=
  ["HP"; "Dell"; "Lenovo"; "Asus"; "Acer"; "MSI"; "Apple"; "MacBook"]%string.

(** [(\d+GB)] *)
Definition re_gb : regex := seqs [plus digit; lit "GB"].

(** [f'({brand})\s+([A-Z0-9][A-Za-z0-9\\s]+?)(?:\s+(\d+GB))?(?:\s+(\d+GB))?'] *)
Definition mobile_pattern (brand : string) : regex :=
  seqs [ Grp 1 (lit brand);
         plus space;
         Grp 2 (Seq (Set_ false [rng "A" "Z"; rng "0" "9"])
                    (plus_lazy (Set_ false [rng "A" "Z"; rng "a" "z"; rng "0" "9"; CSpace])));
         opt (Seq (plus space) (Grp 3 re_gb));
         opt (Seq (plus space) (Grp 4 re_gb)) ].

(** [\s+(with|and|for|official|factory).*$] *)
Definition re_trailing_junk : regex :=
  seqs [ plus space;
         Grp 1 (alts [lit "with"; lit "and"; lit "for"; lit "official"; lit "factory"]);
         star Any;
         EndA ].

(** [f'({brand})\s+([A-Za-z0-9\\s]+?)(?:\s+(i[3579]|Ryzen\s*[3579]|M[12]))?'] *)
Definition laptop_pattern (brand : string) : regex :=
  seqs [ Grp 1 (lit brand);
         plus space;
         Grp 2 (plus_lazy (Set_ false [rng "A" "Z"; rng "a" "z"; rng "0" "9"; CSpace]));
         opt (Seq (plus space)
                  (Grp 3 (alts [ Seq (lit "i") (one_of "3579");
                                 seqs [lit "Ryzen"; star space; one_of "3579"];
                                 Seq (lit "M") (one_of "12") ]))) ].

(** [(\d+GB)\s*RAM] and [(\d+GB|\d+TB)\s*(?:SSD|HDD|Storage)] *)
Definition re_ram : regex := seqs [Grp 1 re_gb; star space; lit "RAM"].
Definition re_storage : regex :=
  seqs [ Grp 1 (Alt re_gb (seqs [plus digit; lit "TB"]));
         star space;
         alts [lit "SSD"; lit "HDD"; lit "Storage"] ].

(** [match.group(n) or ''] *)
Definition group_or_empty (n : nat) (m : mstate) : str :=
  match group n m with Some s => s | None => [] end.

Definition sp : str := [32%N].

(** The body of the mobile loop for one brand: [None] when the brand's
    pattern is not found in [cleaned]. *)
Definition mobile_try (cleaned : str) (brand : string) : option str :=
  match search true (mobile_pattern brand) cleaned with
  | None => None
  | Some (_, m) =>
      let brand_name := group_or_empty 1 m in
      let model := strip (group_or_empty 2 m) in
      let ram := group_or_empty 3 m in
      let storage := group_or_empty 4 m in
      let model := sub true re_trailing_junk [] model in
      Some (strip (brand_name ++ sp ++ model ++ sp ++ ram ++ sp ++ storage))
  end.

(** The body of the laptop loop for one brand. *)
Definition laptop_try (cleaned : str) (brand : string) : option str :=
  match search true (laptop_pattern brand) cleaned with
  | None => None
  | Some (_, m) =>
      let brand_name := group_or_empty 1 m in
      let model := strip (group_or_empty 2 m) in
      let processor := group_or_empty 3 m in
      let ram :=
        match search true re_ram cleaned with
        | Some (_, rm) => group_or_empty 1 rm
        | None => []
        end in
      let storage :=
        match search true re_storage cleaned with
        | Some (_, sm) => group_or_empty 1 sm
        | None => []
        end in
      Some (strip (brand_name ++ sp ++ model ++ sp ++ processor ++ sp ++ ram ++ sp ++ storage))
  end.

(** [for brand in brands: ... if match: cleaned = ...; break] *)
Fixpoint first_brand (try : str -> string -> option str) (brands : list string)
         (cleaned : str) : str :=
  match brands with
  | [] => cleaned
  | brand :: rest =>
      match try cleaned brand with
      | Some cleaned' => cleaned'
      | None => first_brand try rest cleaned
      end
  end.

Definition strip_garbage (title : str) : str :=
  fold_left (fun cleaned pattern => sub true pattern [] cleaned) garbage_patterns title.

Definition normalise (cleaned : str) : str :=
  let cleaned := sub false re_spaces sp cleaned in
  let cleaned := sub false re_separators sp cleaned in
  let cleaned := sub false re_parens [] cleaned in
  strip cleaned.

Definition clean_title_with_regex (title : str) : str :=
  let cleaned := normalise (strip_garbage title) in
  let cleaned := first_brand mobile_try mobile_brands cleaned in
  let cleaned := first_brand laptop_try laptop_brands cleaned in
  strip (sub false re_spaces sp cleaned).

(** ** JSON values, as [request.json] hands them to a handler *)

Inductive json :=
| JNull
| JBool (b : bool)
| JNum (q : Q)
| JStr (s : str)
| JArr (items : list json)
| JObj (fields : list (str * json)).

(** The truth value Python gives a parsed JSON value ([not title]). *)
Definition truthy (v : json) : bool :=
  match v with
  | JNull => false
  | JBool b => b
  | JNum q => negb (Qeq_bool q 0)
  | JStr s => match s with [] => false | _ :: _ => true end
  | JArr items => match items with [] => false | _ :: _ => true end
  | JObj fields => match fields with [] => false | _ :: _ => true end
  end.

(** Python exceptions that the handlers can meet. *)
Inductive exn := TypeError | AttributeError | UnboundLocalError.

Inductive res (A : Type) :=
| Ok (a : A)
| Raise (e : exn).

Arguments Ok {A} a.
Arguments Raise {A} e.

Fixpoint assoc (key : str) (fields : list (str * json)) : option json :=
  match fields with
  | [] => None
  | (k, v) :: rest => if str_eqb k key then Some v else assoc key rest
  end.

(** [data.get(key, default)]: only a JSON object has a [get]. *)
Definition dict_get (data : json) (key : str) (default : json) : res json :=
  match data with
  | JObj fields =>
      Ok (match assoc key fields with Some v => v | None => default end)
  | _ => Raise AttributeError
  end.

(** [title[:60]] needs a sequence: of the JSON values only a string or a
    list can be sliced (a number, a boolean and an object raise). *)
Inductive sequence :=
| SeqStr (s : str)
| SeqList (items : list json).

Definition as_sequence (v : json) : res sequence :=
  match v with
  | JStr s => Ok (SeqStr s)
  | JArr items => Ok (SeqList items)
  | _ => Raise TypeError
  end.

(** [elapsed > timeout] for a float [elapsed]: defined against a number or a
    boolean, a [TypeError] against anything else. Floats are read as the
    rationals they denote. *)
Definition Qlt_bool (a b : Q) : bool := negb (Qle_bool b a).

Definition float_gt (elapsed : Q) (timeout : json) : res bool :=
  match timeout with
  | JNum q => Ok (Qlt_bool q elapsed)
  | JBool b => Ok (Qlt_bool (if b then 1 else 0) elapsed)
  | _ => Raise TypeError
  end.

(** [int(x)]: truncation towards zero. *)
Definition py_int (x : Q) : Z := Z.quot (Qnum x) (Z.pos (Qden x)).

(** ** The process and its surroundings *)

(** What [model.generate_content(prompt)] under the alarm comes to. *)
Inductive ai_outcome :=
| Text (t : str)            (* [response.text] *)
| TimedOut                  (* [TimeoutError] from [timeout_handler] *)
| ProviderError.            (* any other exception *)

(** One external completion: the prompt sent and the alarm armed for it. *)
Record ai_call := Call {
  prompt : str;
  alarm : option nat
}.

(** The surroundings of the process: the flag set at start-up, whether the
    platform has [signal.SIGALRM], the provider's answer to the n-th
    completion, and the n-th reading of [time.time()]. *)
Record env := Env {
  AI_ENABLED : bool;
  has_SIGALRM : bool;
  generate_content : nat -> str -> ai_outcome;
  time_time : nat -> Q
}.

(** The process-wide state: the entries of the [lru_cache] (most recently used
    first) with its counters, the completions issued so far (oldest first) and
    the number of clock readings taken. *)
Record world := World {
  cache : list (str * option str);
  hits : nat;
  misses : nat;
  calls : list ai_call;
  reads : nat
}.

Definition startup : world := World [] 0 0 [] 0.

Definition set_cache (entries : list (str * option str)) (w : world) : world :=
  World entries (hits w) (misses w) (calls w) (reads w).
Definition count_hit (w : world) : world :=
  World (cache w) (S (hits w)) (misses w) (calls w) (reads w).
Definition count_miss (w : world) : world :=
  World (cache w) (hits w) (S (misses w)) (calls w) (reads w).
Definition log_call (c : ai_call) (w : world) : world :=
  World (cache w) (hits w) (misses w) (calls w ++ [c]) (reads w).
Definition tick (w : world) : world :=
  World (cache w) (hits w) (misses w) (calls w) (S (reads w)).

(** Computations that read and change the process state and may raise. *)
Definition M (A : Type) : Type := world -> res A * world.

Definition ret {A} (a : A) : M A := fun w => (Ok a, w).
Definition raise {A} (e : exn) : M A := fun w => (Raise e, w).
Definition lift {A} (r : res A) : M A := fun w => (r, w).

Definition bind {A B} (c : M A) (f : A -> M B) : M B :=
  fun w =>
    match c w with
    | (Ok a, w') => f a w'
    | (Raise e, w') => (Raise e, w')
    end.

(** [try: c  except Exception as e: h e] *)
Definition catch {A} (c : M A) (h : exn -> M A) : M A :=
  fun w =>
    match c w with
    | (Ok a, w') => (Ok a, w')
    | (Raise e, w') => h e w'
    end.

Notation "x <- c ;; k" := (bind c (fun x => k))
  (at level 61, c at next level, right associativity).

(** ** The AI cleaner and its cache *)

Definition dq : str := [34%N].
Definition nl : str := [10%N].

Definition quoted (s : string) : str := dq ++ of_string s ++ dq.

Definition unlines (ls : list str) : str :=
  match ls with
  | [] => []
  | l :: rest => l ++ flat_map (fun x => nl ++ x) rest
  end.

(** The f-string of [clean_title_with_ai]. *)
Definition build_prompt (title : str) : str :=
  unlines
    [ of_string "Extract only the essential product information from this title.";
      [];
      of_string "Remove: promotional text, warranty info, shipping info, seller info, PTA approved, official warranty, cash on delivery, installment, sealed, original, authentic, new, limited stock, sale, discount, special offer, hot deal.";
      [];
      of_string "Keep: brand, model, RAM, storage, screen size, processor, color (only if important).";
      [];
      of_string "Title: " ++ title;
      [];
      of_string "Return ONLY the cleaned product name with key specs in this exact format:";
      of_string "Brand Model RAM Storage";
      [];
      of_string "Examples:";
      of_string "- Input: " ++ quoted "Samsung Galaxy A15 8GB/256GB PTA Approved Official Warranty Fast Shipping";
      of_string "  Output: " ++ quoted "Samsung Galaxy A15 8GB 256GB";
      of_string "  ";
      of_string "- Input: " ++ quoted "iPhone 13 Pro Max 256GB Factory Unlocked Original Apple Warranty";
      of_string "  Output: " ++ quoted "iPhone 13 Pro Max 256GB";
      of_string "  ";
      of_string "- Input: " ++ quoted "HP Pavilion Gaming Laptop i5 11th Gen 8GB RAM 512GB SSD";
      of_string "  Output: " ++ quoted "HP Pavilion Gaming i5 11th Gen 8GB 512GB";
      [];
      of_string "Now clean this title (reply with ONLY the cleaned version, no explanation):" ].

(** [@lru_cache(maxsize=1000)] *)
Definition maxsize : nat := 1000.

Fixpoint cache_get (key : str) (entries : list (str * option str))
  : option (option str) :=
  match entries with
  | [] => None
  | (k, v) :: rest => if str_eqb k key then Some v else cache_get key rest
  end.

Definition cache_remove (key : str) (entries : list (str * option str))
  : list (str * option str) :=
  filter (fun e => negb (str_eqb (fst e) key)) entries.

(** A new entry goes in front; a full cache first drops its least recently
    used entry, the last one. *)
Definition cache_put (key : str) (v : option str) (entries : list (str * option str))
  : list (str * option str) :=
  (key, v) :: firstn (maxsize - 1) entries.

Section Server.

Variable E : env.

(** The alarm of [signal.alarm(3)], armed where the platform has one. *)
Definition deadline : option nat := if has_SIGALRM E then Some 3 else None.

(** [model.generate_content(prompt)] between [signal.alarm(3)] and
    [signal.alarm(0)]: the call is logged with the alarm armed for it, and
    its outcome is the provider's. (An alarm that is still armed after a
    call that raised is not followed further.) *)
Definition complete (p : str) : M ai_outcome :=
  fun w =>
    (Ok (generate_content E (List.length (calls w)) p), log_call (Call p deadline) w).

Definition clean_title_with_ai (title : str) : M (option str) :=
  if negb (AI_ENABLED E) then ret None
  else
    outcome <- complete (build_prompt title) ;;
    match outcome with
    | Text text =>
        let cleaned := strip text in
        let cleaned := strip (remove_char 39 (remove_char 34 cleaned)) in
        ret (Some cleaned)
    | TimedOut => ret None
    | ProviderError => ret None
    end.

(** The wrapper [lru_cache] puts around [clean_title_with_ai]: a hit moves the
    entry to the front and counts; a miss counts, calls the function and
    stores whatever it returns. *)
Definition cached_clean_title (title : str) : M (option str) :=
  fun w =>
    match cache_get title (cache w) with
    | Some v =>
        (Ok v, count_hit (set_cache ((title, v) :: cache_remove title (cache w)) w))
    | None =>
        match clean_title_with_ai title (count_miss w) with
        | (Ok v, w') => (Ok v, set_cache (cache_put title v (cache w')) w')
        | (Raise e, w') => (Raise e, w')
        end
    end.

(** [time.time()] *)
Definition now : M Q :=
  fun w => (Ok (time_time E (reads w)), tick w).

(** ** The endpoints *)

Inductive method_tag := M_ai | M_regex | M_none.

(** The JSON object a cleaning answers with. *)
Record cleaning_result := CleaningResult {
  success : bool;
  original : json;
  cleaned : json;
  method : method_tag;
  confidence : Q;
  time_ms : option Z;
  error : option exn
}.

Inductive response :=
| Reply (r : cleaning_result)              (* status 200 *)
| BadRequest (message : str).              (* status 400, [success] false *)

(** [cached_clean_title(title)] and [clean_title_with_regex(title)] for a
    title that got past the slice: a list cannot be a cache key and is no
    text for [re.sub]. *)
Definition cached_clean_title_of (title : sequence) : M (option str) :=
  match title with
  | SeqStr s => cached_clean_title s
  | SeqList _ => raise TypeError
  end.

Definition clean_title_with_regex_of (title : sequence) : res str :=
  match title with
  | SeqStr s => Ok (clean_title_with_regex s)
  | SeqList _ => Raise TypeError
  end.

(** [int((time.time() - start_time) * 1000)] *)
Definition elapsed_ms (start_time : Q) : M Z :=
  t <- now ;;
  ret (py_int ((t - start_time) * 1000)%Q).

(** PLAN A: the cached AI cleaner, dropped when it took longer than
    [timeout] or raised. *)
Definition plan_a (title : sequence) (timeout : json) (start_time : Q)
  : M (option str) :=
  if AI_ENABLED E then
    catch (ai_result <- cached_clean_title_of title ;;
           t <- now ;;
           let elapsed := (t - start_time)%Q in
           slow <- lift (float_gt elapsed timeout) ;;
           if slow then ret None else ret ai_result)
          (fun _ => ret None)
  else ret None.

(** The [try] block of [clean_title_endpoint], after [title] and [timeout]
    are read. *)
Definition clean_title_try (title timeout : json) : M response :=
  if negb (truthy title) then ret (BadRequest (of_string "No title provided"))
  else
    title_seq <- lift (as_sequence title) ;;
    start_time <- now ;;
    ai_result <- plan_a title_seq timeout start_time ;;
    match ai_result with
    | Some (c :: rest) =>
        ms <- elapsed_ms start_time ;;
        ret (Reply (CleaningResult true title (JStr (c :: rest)) M_ai 0.95 (Some ms) None))
    | _ =>
        regex_result <- lift (clean_title_with_regex_of title_seq) ;;
        ms <- elapsed_ms start_time ;;
        ret (Reply (CleaningResult true title (JStr regex_result) M_regex 0.75 (Some ms) None))
    end.

(** The [except] block: the ultimate fallback. *)
Definition ultimate_fallback (title : json) (e : exn) : response :=
  Reply (CleaningResult true title title M_none 0.5 None (Some e)).

(** [clean_title_endpoint]; [data] is [request.json]. When [data.get] itself
    raises, the handler reads a [title] that was never assigned, and that
    exception leaves the function. *)
Definition clean_title_endpoint (data : json) : M response :=
  match dict_get data (of_string "title") (JStr []) with
  | Raise _ => raise UnboundLocalError
  | Ok title =>
      catch (timeout <- lift (dict_get data (of_string "timeout") (JNum 3)) ;;
             clean_title_try title timeout)
            (fun e => ret (ultimate_fallback title e))
  end.

(** One turn of the loop of [clean_batch_endpoint], for a title that is a
    string. *)
Definition clean_batch_item (title : str) : M (str * str) :=
  cleaned <-
    catch (cleaned <- (if AI_ENABLED E then cached_clean_title title else ret None) ;;
           match cleaned with
           | Some (c :: rest) => ret (c :: rest)
           | _ => ret (clean_title_with_regex title)
           end)
          (fun _ => ret (clean_title_with_regex title)) ;;
  ret (title, cleaned).

Fixpoint clean_batch (titles : list str) : M (list (str * str)) :=
  match titles with
  | [] => ret []
  | title :: rest =>
      item <- clean_batch_item title ;;
      results <- clean_batch rest ;;
      ret (item :: results)
  end.

Inductive batch_response :=
| BatchReply (results : list (str * str))  (* status 200, [success] true *)
| BatchError (e : exn).                    (* status 500, [success] false *)

Definition clean_batch_endpoint (titles : list str) : M batch_response :=
  catch (results <- clean_batch titles ;; ret (BatchReply results))
        (fun e => ret (BatchError e)).

(** [health_check]: the flag and [cached_clean_title.cache_info()]. *)
Record health := Health {
  ai_available : bool;
  cache_size : nat;
  cache_hits : nat;
  cache_misses : nat
}.

Definition health_check : M health :=
  fun w => (Ok (Health (AI_ENABLED E) (List.length (cache w)) (hits w) (misses w)), w).

End Server.

(** The sample titles of [test_endpoint]. *)
Definition test_titles : list str :=
  map of_string
    [ "Samsung Galaxy A15 8GB/256GB PTA Approved Official Warranty Fast Shipping";
      "iPhone 13 Pro Max 256GB Factory Unlocked Original Apple Warranty Cash on Delivery";
      "HP Pavilion Gaming Laptop i5 11th Gen 8GB RAM 512GB SSD Official Warranty";
      "Xiaomi Redmi Note 12 Pro 5G 8GB+256GB Global Version PTA Approved" ]%string.

(** What [clean_title_with_ai] returns for each outcome of the completion
    (used to state its result in one piece). *)
Definition ai_value (o : ai_outcome) : option str :=
  match o with
  | Text text => Some (strip (remove_char 39 (remove_char 34 (strip text))))
  | TimedOut => None
  | ProviderError => None
  end.

(** The state PLAN A leaves behind for a string title. *)
Definition after_plan_a (E : env) (title : str) (w : world) : world :=
  if AI_ENABLED E then tick (snd (cached_clean_title E title w)) else w.

(** The two replies a string title can get, by the AI result kept. *)
Definition reply_for (title : str) (ai_result : option str) (ms : Z) : response :=
  match ai_result with
  | Some (c :: rest) =>
      Reply (CleaningResult true (JStr title) (JStr (c :: rest)) M_ai 0.95 (Some ms) None)
  | _ =>
      Reply (CleaningResult true (JStr title) (JStr (clean_title_with_regex title))
                            M_regex 0.75 (Some ms) None)
  end.

(** [data.get('title', '')] and [data.get('timeout', 3)] on a JSON object. *)
Definition title_of (fields : list (str * json)) : json :=
  match assoc (of_string "title") fields with Some v => v | None => JStr [] end.
Definition timeout_of (fields : list (str * json)) : json :=
  match assoc (of_string "timeout") fields with Some v => v | None => JNum 3 end.

(** The state a request with a given title leaves behind. *)
Definition world_after (E : env) (title : json) (w : world) : world :=
  if truthy title then
    match title with
    | JStr s => tick (after_plan_a E s (tick w))
    | JArr _ => tick w
    | _ => w
    end
  else w.

(** The AI attempt of one batch item, and the string the item keeps. *)
Definition ai_attempt (E : env) (title : str) (w : world) : res (option str) * world :=
  if AI_ENABLED E then cached_clean_title E title w else (Ok None, w).

Definition keep_or_extract (title : str) (attempt : res (option str)) : str :=
  match attempt with
  | Ok (Some (c :: rest)) => c :: rest
  | _ => clean_title_with_regex title
  end.

(** ** Notions for reasoning about the matcher *)

(** The numbers of the groups of a pattern. *)
Fixpoint group_ids (r : regex) : list nat :=
  match r with
  | Seq a b => group_ids a ++ group_ids b
  | Alt a b => group_ids a ++ group_ids b
  | Rep _ _ _ a => group_ids a
  | Grp n a => n :: group_ids a
  | _ => []
  end.

(** [st'] lies ahead of [st] in the same text: not before it, as far from the
    end as it has moved, and with groups numbered in [ids] put on top. *)
Record ahead (ids : list nat) (st st' : mstate) : Prop := Ahead {
  ahead_pos : pos st <= pos st';
  ahead_text : pos st' + List.length (after st') = pos st + List.length (after st);
  ahead_groups :
    exists new, groups st' = new ++ groups st /\ Forall (fun g => In (fst g) ids) new
}.

(** ** The remaining endpoints and the server *)

(** One row of [test_endpoint]: [ai_cleaned] is what [clean_title_with_ai]
    returned ([None] is its failure), or one of the two fixed texts. *)
Record test_row := TestRow {
  row_original : str;
  row_ai_cleaned : option str;
  row_regex_cleaned : str
}.

Definition test_item (E : env) (title : str) : M test_row :=
  ai_cleaned <-
    catch (if AI_ENABLED E then clean_title_with_ai E title
           else ret (Some (of_string "AI not available")))
          (fun _ => ret (Some (of_string "AI failed"))) ;;
  ret (TestRow title ai_cleaned (clean_title_with_regex title)).

Fixpoint test_rows (E : env) (titles : list str) : M (list test_row) :=
  match titles with
  | [] => ret []
  | title :: rest =>
      row <- test_item E title ;;
      rows <- test_rows E rest ;;
      ret (row :: rows)
  end.

(** [test_endpoint]: the rows for [test_titles] and the flag. *)
Definition test_endpoint (E : env) : M (list test_row * bool) :=
  rows <- test_rows E test_titles ;;
  ret (rows, AI_ENABLED E).

(** The routes of the application. A batch is given as the list of its
    titles, all strings. *)
Inductive http_request :=
| PostCleanTitle (data : json)
| PostCleanBatch (titles : list str)
| GetHealth
| GetTest
| GetIndex.

(** The state a request leaves behind, whether its handler returned or
    raised; [index] only reads the flag. *)
Definition handle (E : env) (req : http_request) (w : world) : world :=
  match req with
  | PostCleanTitle data => snd (clean_title_endpoint E data w)
  | PostCleanBatch titles => snd (clean_batch_endpoint E titles w)
  | GetHealth => snd (health_check E w)
  | GetTest => snd (test_endpoint E w)
  | GetIndex => w
  end.

(** Requests served one after the other. *)
Definition serve (E : env) (reqs : list http_request) (w : world) : world :=
  fold_left (fun w req => handle E req w) reqs w.

(** What holds of the cache in every state the server reaches: at most
    [maxsize] entries, no title twice, no more entries than misses counted,
    and no quote character in a stored string. *)
Record cache_ok (w : world) : Prop := CacheOk {
  ok_size : List.length (cache w) <= maxsize;
  ok_keys : NoDup (map fst (cache w));
  ok_misses : List.length (cache w) <= misses w;
  ok_values : forall k s, In (k, Some s) (cache w) -> ~ In 34%N s /\ ~ In 39%N s
}.

(** The number of [/test] requests in a list of requests. *)
Definition is_get_test (req : http_request) : bool :=
  match req with GetTest => true | _ => false end.


(** ** Notions for the text the extractor returns *)

(** One space for every run of whitespace; [in_run] tells that the
    character before was whitespace of a run already replaced. *)
Fixpoint squeeze (in_run : bool) (s : str) : str :=
  match s with
  | [] => []
  | c :: tl =>
      if is_space c then
        if in_run then squeeze true tl else 32%N :: squeeze true tl
      else c :: squeeze false tl
  end.

(** The number of whitespace characters a text starts with. *)
Fixpoint leading_spaces (s : str) : nat :=
  match s with
  | c :: tl => if is_space c then S (leading_spaces tl) else 0
  | [] => 0
  end.

(** Every whitespace character of [s] is a plain space that does not follow
    whitespace; [prev] tells whether the character before [s] was
    whitespace. *)
Fixpoint spaced (prev : bool) (s : str) : Prop :=
  match s with
  | [] => True
  | c :: tl =>
      (is_space c = true -> prev = false /\ c = 32%N) /\ spaced (is_space c) tl
  end.

(** The least number of characters a match of a pattern takes. *)
Fixpoint min_len (r : regex) : nat :=
  match r with
  | Eps | WordB | EndA => 0
  | Lit _ | Any | Set_ _ _ => 1
  | Seq a b => min_len a + min_len b
  | Alt a b => Nat.min (min_len a) (min_len b)
  | Rep lo _ _ a => lo * min_len a
  | Grp _ a => min_len a
  end.

(** The text left and the groups of a matcher state all come from a text [T]. *)
Definition textual (T : str) (st : mstate) : Prop :=
  incl (after st) T /\ forall g, In g (groups st) -> incl (snd g) T.

(** The rupee sign and the decoration glyphs of [garbage_patterns]. *)
Definition is_rupee_or_glyph (c : char) : bool :=
  (c =? 8377)%N || (c =? 11088)%N || (c =? 9733)%N || (c =? 10003)%N || (c =? 10004)%N.

(** The separators of [[|•\-_]+]. *)
Definition is_separator (c : char) : bool :=
  (c =? 124)%N || (c =? 8226)%N || (c =? 45)%N || (c =? 95)%N.

(** ** Sample surroundings and requests *)

(** A clock that advances by [step] seconds between two readings. *)
Definition ticking (step : Q) : nat -> Q :=
  fun n => (inject_Z (Z.of_nat n) * step)%Q.

(** The AI flag off; a provider that always fails; a provider that always
    answers [answer]; a provider that fails on its n-th completion only. *)
Definition env_off : env :=
  Env false true (fun _ _ => ProviderError) (ticking 1).
Definition env_failing : env :=
  Env true true (fun _ _ => ProviderError) (ticking 1).
Definition env_answering (answer : string) (step : Q) : env :=
  Env true true (fun _ _ => Text (of_string answer)) (ticking step).

Definition request (title : string) : json :=
  JObj [(of_string "title", JStr (of_string title))].
Definition request_with (title : string) (timeout : json) : json :=
  JObj [(of_string "title", JStr (of_string title)); (of_string "timeout", timeout)].

(** A state whose cache is full: 1000 one-character titles, each with a
    memoized failure. *)
Definition full_cache : list (str * option str) :=
  map (fun n => ([N.of_nat n], None)) (seq 0 1000).

Definition full_world : world := World full_cache 0 1000 [] 0.

(** Unfolds the monadic operations of a handler. *)
Ltac unfold_m :=
  unfold clean_title_try, elapsed_ms, now, bind, catch, lift, ret, raise in *.

(** * Properties *)

Unset Implicit Arguments.

Lemma str_eqb_eq (a b : str) : str_eqb a b = true <-> a = b.
Proof.
  unfold str_eqb. destruct (list_eq_dec N.eq_dec a b); split; congruence.
Qed.

Lemma str_eqb_refl (a : str) : str_eqb a a = true.
Proof. now apply str_eqb_eq. Qed.

(** ** The matcher *)

Lemma ahead_refl (ids : list nat) (st : mstate) : ahead ids st st.
Proof.
  split; [lia | lia | exists []; split; [reflexivity | constructor]].
Qed.

Lemma ahead_trans (ids : list nat) (st1 st2 st3 : mstate) :
  ahead ids st1 st2 -> ahead ids st2 st3 -> ahead ids st1 st3.
Proof.
  intros [P1 T1 (n1 & G1 & F1)] [P2 T2 (n2 & G2 & F2)].
  split; [lia | lia |].
  exists (n2 ++ n1). split.
  - now rewrite G2, G1, app_assoc.
  - apply Forall_app. now split.
Qed.

Lemma ahead_weaken (ids ids' : list nat) (st st' : mstate) :
  incl ids ids' -> ahead ids st st' -> ahead ids' st st'.
Proof.
  intros Hincl [P T (new & G & F)].
  split; [assumption | assumption |].
  exists new. split; [assumption|].
  eapply Forall_impl; [|exact F]. intros g Hg. now apply Hincl.
Qed.

Lemma ahead_advance (ids : list nat) (st : mstate) (c : char) (tl : str) :
  after st = c :: tl -> ahead ids st (advance st c tl).
Proof.
  intros H. split; simpl.
  - lia.
  - rewrite H. simpl. lia.
  - exists []. split; [reflexivity | constructor].
Qed.

Lemma rep_loop_eq step lo hi greedy k fuel count st :
  rep_loop step lo hi greedy k fuel count st =
    let body :=
      match fuel with
      | O => None
      | S fuel' =>
          if under hi count then
            step st (fun st' =>
              if (lo <=? count) && (pos st' =? pos st) then None
              else rep_loop step lo hi greedy k fuel' (S count) st')
          else None
      end in
    if count <? lo then body
    else if greedy then or_else body (k st)
    else or_else (k st) body.
Proof. destruct fuel; reflexivity. Qed.

(** A match is always handed over by the continuation, from a position that
    lies ahead. *)
Lemma run_inv (ic : bool) (r : regex) :
  forall st k m,
    run ic r st k = Some m ->
    exists st', ahead (group_ids r) st st' /\ k st' = Some m.
Proof.
  induction r as [|x| |neg items| | |a IHa b IHb|a IHa b IHb|lo hi greedy a IHa|n a IHa];
    intros st k m H; simpl in H.
  - exists st. split; [apply ahead_refl | exact H].
  - unfold one_char in H. destruct (after st) as [|c tl] eqn:Ha; [discriminate|].
    destruct (lit_matches ic x c); [|discriminate].
    exists (advance st c tl). split; [now apply ahead_advance | exact H].
  - unfold one_char in H. destruct (after st) as [|c tl] eqn:Ha; [discriminate|].
    destruct (negb (c =? 10)%N); [|discriminate].
    exists (advance st c tl). split; [now apply ahead_advance | exact H].
  - unfold one_char in H. destruct (after st) as [|c tl] eqn:Ha; [discriminate|].
    destruct (set_matches ic neg items c); [|discriminate].
    exists (advance st c tl). split; [now apply ahead_advance | exact H].
  - destruct (at_word_boundary st); [|discriminate].
    exists st. split; [apply ahead_refl | exact H].
  - destruct (at_end st); [|discriminate].
    exists st. split; [apply ahead_refl | exact H].
  - apply IHa in H. destruct H as (st1 & A1 & H).
    apply IHb in H. destruct H as (st2 & A2 & H).
    exists st2. split; [|exact H]. simpl.
    eapply ahead_trans; eapply ahead_weaken; try eassumption.
    + apply incl_appl, incl_refl.
    + apply incl_appr, incl_refl.
  - simpl. unfold or_else in H.
    destruct (run ic a st k) eqn:Hra.
    + injection H as ->. apply IHa in Hra. destruct Hra as (st1 & A1 & Hk).
      exists st1. split; [|exact Hk].
      eapply ahead_weaken; [|exact A1]. apply incl_appl, incl_refl.
    + apply IHb in H. destruct H as (st1 & A1 & Hk).
      exists st1. split; [|exact Hk].
      eapply ahead_weaken; [|exact A1]. apply incl_appr, incl_refl.
  - simpl. revert H. generalize (lo + List.length (after st)) as fuel.
    generalize 0 as count. intros count fuel. revert count st.
    induction fuel as [|fuel IHf]; intros count st H; rewrite rep_loop_eq in H;
      cbv zeta in H.
    + assert (Hk : k st = Some m).
      { destruct (count <? lo); [discriminate|].
        destruct greedy; simpl in H; [exact H|].
        now destruct (k st). }
      exists st. split; [apply ahead_refl | exact Hk].
    + assert (Hcases :
        k st = Some m \/
        run ic a st (fun st' =>
          if (lo <=? count) && (pos st' =? pos st) then None
          else rep_loop (run ic a) lo hi greedy k fuel (S count) st') = Some m).
      { destruct (under hi count).
        - destruct (count <? lo); [now right|].
          destruct greedy; unfold or_else in H.
          + destruct (run ic a st _); [now right | now left].
          + destruct (k st); [now left | now right].
        - destruct (count <? lo); [discriminate|].
          destruct greedy; unfold or_else in H; [now left|].
          destruct (k st); [now left | discriminate]. }
      destruct Hcases as [Hk|Hbody].
      * exists st. split; [apply ahead_refl | exact Hk].
      * apply IHa in Hbody. destruct Hbody as (st1 & A1 & H1).
        destruct ((lo <=? count) && (pos st1 =? pos st)); [discriminate|].
        apply IHf in H1. destruct H1 as (st2 & A2 & Hk).
        exists st2. split; [|exact Hk]. eapply ahead_trans; eassumption.
  - apply IHa in H. destruct H as (st1 & [P T (new & G & F)] & Hk).
    eexists. split; [|exact Hk].
    split; simpl; [assumption | assumption |].
    exists ((n, firstn (pos st1 - pos st) (after st)) :: new). split.
    + now rewrite G.
    + constructor; [now left|].
      eapply Forall_impl; [|exact F]. intros g Hg. now right.
Qed.

Lemma run_none (ic : bool) (r : regex) (st : mstate) (k : mstate -> option mstate) :
  (forall st', ahead (group_ids r) st st' -> k st' = None) ->
  run ic r st k = None.
Proof.
  intros Hk. destruct (run ic r st k) as [m|] eqn:H; [|reflexivity].
  apply run_inv in H. destruct H as (st' & A & H).
  rewrite (Hk st' A) in H. discriminate.
Qed.

(** Only what the continuation does ahead of the position matters. *)
Lemma run_ext (ic : bool) (r : regex) :
  forall st k1 k2,
    (forall st', ahead (group_ids r) st st' -> k1 st' = k2 st') ->
    run ic r st k1 = run ic r st k2.
Proof.
  induction r as [|x| |neg items| | |a IHa b IHb|a IHa b IHb|lo hi greedy a IHa|n a IHa];
    intros st k1 k2 Hk; simpl.
  - apply Hk, ahead_refl.
  - unfold one_char. destruct (after st) as [|c tl] eqn:Ha; [reflexivity|].
    destruct (lit_matches ic x c); [|reflexivity]. now apply Hk, ahead_advance.
  - unfold one_char. destruct (after st) as [|c tl] eqn:Ha; [reflexivity|].
    destruct (negb (c =? 10)%N); [|reflexivity]. now apply Hk, ahead_advance.
  - unfold one_char. destruct (after st) as [|c tl] eqn:Ha; [reflexivity|].
    destruct (set_matches ic neg items c); [|reflexivity]. now apply Hk, ahead_advance.
  - destruct (at_word_boundary st); [|reflexivity]. apply Hk, ahead_refl.
  - destruct (at_end st); [|reflexivity]. apply Hk, ahead_refl.
  - apply IHa. intros st1 A1. apply IHb. intros st2 A2. apply Hk. simpl.
    eapply ahead_trans; eapply ahead_weaken; try eassumption.
    + apply incl_appl, incl_refl.
    + apply incl_appr, incl_refl.
  - f_equal.
    + apply IHa. intros st1 A1. apply Hk. simpl.
      eapply ahead_weaken; [|exact A1]. apply incl_appl, incl_refl.
    + apply IHb. intros st1 A1. apply Hk. simpl.
      eapply ahead_weaken; [|exact A1]. apply incl_appr, incl_refl.
  - simpl in Hk. revert Hk. generalize (lo + List.length (after st)) as fuel.
    generalize 0 as count. intros count fuel. revert count st.
    induction fuel as [|fuel IHf]; intros count st Hk; rewrite !rep_loop_eq with (st := st);
      cbv zeta; rewrite (Hk st (ahead_refl _ st)); [reflexivity|].
    assert (Hbody :
      run ic a st (fun st' =>
        if (lo <=? count) && (pos st' =? pos st) then None
        else rep_loop (run ic a) lo hi greedy k1 fuel (S count) st')
      = run ic a st (fun st' =>
        if (lo <=? count) && (pos st' =? pos st) then None
        else rep_loop (run ic a) lo hi greedy k2 fuel (S count) st')).
    { apply IHa. intros st1 A1.
      destruct ((lo <=? count) && (pos st1 =? pos st)); [reflexivity|].
      apply IHf. intros st2 A2. apply Hk. eapply ahead_trans; eassumption. }
    now rewrite Hbody.
  - apply IHa. intros st1 [P T (new & G & F)]. apply Hk.
    split; simpl; [assumption | assumption |].
    exists ((n, firstn (pos st1 - pos st) (after st)) :: new). split.
    + now rewrite G.
    + constructor; [now left|].
      eapply Forall_impl; [|exact F]. intros g Hg. now right.
Qed.

(** Once the minimum is reached and the text is used up, the loop can only
    hand over to its continuation, whatever fuel it has. *)
Lemma rep_loop_at_end (ic : bool) (a : regex) lo hi greedy k fuel count st :
  lo <= count ->
  after st = [] ->
  rep_loop (run ic a) lo hi greedy k fuel count st = k st.
Proof.
  intros Hlo Hend. rewrite rep_loop_eq. cbv zeta.
  assert (Hbody :
    match fuel with
    | O => None
    | S fuel' =>
        if under hi count then
          run ic a st (fun st' =>
            if (lo <=? count) && (pos st' =? pos st) then None
            else rep_loop (run ic a) lo hi greedy k fuel' (S count) st')
        else None
    end = None).
  { destruct fuel as [|fuel']; [reflexivity|].
    destruct (under hi count); [|reflexivity].
    apply run_none. intros st' [P T _]. rewrite Hend in T. simpl in T.
    assert (Hpos : pos st' = pos st) by lia.
    rewrite Hpos, Nat.eqb_refl.
    now rewrite (proj2 (Nat.leb_le lo count) Hlo). }
  rewrite Hbody.
  rewrite (proj2 (Nat.ltb_ge count lo) Hlo).
  destruct greedy; simpl; [reflexivity|]. now destruct (k st).
Qed.

(** The fuel [run] gives a repeat, the minimum plus the length of the text
    left, is enough: any larger amount yields the same result. *)
Lemma rep_loop_fuel (ic : bool) (a : regex) lo hi greedy k :
  forall fuel1 fuel2 count st,
    (lo - count) + List.length (after st) <= fuel1 ->
    (lo - count) + List.length (after st) <= fuel2 ->
    rep_loop (run ic a) lo hi greedy k fuel1 count st
    = rep_loop (run ic a) lo hi greedy k fuel2 count st.
Proof.
  induction fuel1 as [|f1 IH]; intros fuel2 count st H1 H2.
  - assert (Hlo : lo <= count) by lia.
    assert (Hend : after st = []) by (destruct (after st); [reflexivity | simpl in H1; lia]).
    now rewrite !rep_loop_at_end.
  - destruct fuel2 as [|f2].
    + assert (Hlo : lo <= count) by lia.
      assert (Hend : after st = [])
        by (destruct (after st); [reflexivity | simpl in H2; lia]).
      now rewrite !rep_loop_at_end.
    + rewrite !rep_loop_eq with (st := st). cbv zeta.
      assert (Hbody :
        run ic a st (fun st' =>
          if (lo <=? count) && (pos st' =? pos st) then None
          else rep_loop (run ic a) lo hi greedy k f1 (S count) st')
        = run ic a st (fun st' =>
          if (lo <=? count) && (pos st' =? pos st) then None
          else rep_loop (run ic a) lo hi greedy k f2 (S count) st')).
      { apply run_ext. intros st' [P T _].
        destruct ((lo <=? count) && (pos st' =? pos st)) eqn:Hc; [reflexivity|].
        apply andb_false_iff in Hc.
        assert (Hless : (lo - S count) + List.length (after st')
                        < (lo - count) + List.length (after st)).
        { destruct Hc as [Hc|Hc].
          - apply Nat.leb_gt in Hc. lia.
          - apply Nat.eqb_neq in Hc. lia. }
        apply IH; lia. }
      now rewrite Hbody.
Qed.

Corollary run_rep_fuel (ic : bool) (a : regex) lo hi greedy st k fuel :
  lo + List.length (after st) <= fuel ->
  run ic (Rep lo hi greedy a) st k = rep_loop (run ic a) lo hi greedy k fuel 0 st.
Proof.
  intros H. simpl. apply rep_loop_fuel; lia.
Qed.

(** ** The model span of the brand templates *)

Lemma opt_never_refuses (ic : bool) (r : regex) (st : mstate)
      (k : mstate -> option mstate) :
  k st <> None -> run ic (opt r) st k <> None.
Proof.
  intros Hk. unfold opt. simpl. rewrite rep_loop_eq. cbv zeta. simpl.
  match goal with |- or_else ?b _ <> None => destruct b; simpl end;
    [discriminate | exact Hk].
Qed.

(** A lazy [+] over a character set, in front of a continuation that never
    refuses, takes exactly one character. *)
Lemma lazy_plus_takes_one (ic neg : bool) (items : list citem) (st : mstate)
      (k : mstate -> option mstate) (m : mstate) :
  (forall st', k st' <> None) ->
  run ic (plus_lazy (Set_ neg items)) st k = Some m ->
  exists c tl, after st = c :: tl /\ k (advance st c tl) = Some m.
Proof.
  intros Hk H. unfold plus_lazy in H. cbn [run] in H.
  rewrite rep_loop_eq in H. cbv zeta in H.
  cbn [Nat.add Nat.ltb Nat.leb under andb] in H.
  unfold one_char at 1 in H. destruct (after st) as [|c tl]; [discriminate|].
  destruct (set_matches ic neg items c); [|discriminate].
  rewrite rep_loop_eq in H. cbv zeta in H.
  cbn [Nat.ltb Nat.leb] in H. unfold or_else in H.
  exists c, tl. split; [reflexivity|].
  destruct (k (advance st c tl)) eqn:Hk1; [exact H|].
  now elim (Hk (advance st c tl)).
Qed.

Lemma search_from_inv (ic : bool) (r : regex) :
  forall aft bef p q m,
    search_from ic r bef aft p = Some (q, m) ->
    exists bef' aft', match_at ic r false bef' aft' q = Some m.
Proof.
  induction aft as [|c tl IH]; intros bef p q m H; simpl in H.
  - destruct (match_at ic r false bef [] p) eqn:Hm; [|discriminate].
    injection H as <- <-. eauto.
  - destruct (match_at ic r false bef (c :: tl) p) eqn:Hm.
    + injection H as <- <-. eauto.
    + eapply IH. exact H.
Qed.

Lemma group_under_new (n : nat) (x : str) (new rest : list (nat * str)) (ids : list nat) :
  Forall (fun g => In (fst g) ids) new ->
  ~ In n ids ->
  find (fun g => fst g =? n) (new ++ (n, x) :: rest) = Some (n, x).
Proof.
  intros F Hn. induction F as [|g new Hg F IH]; simpl.
  - now rewrite Nat.eqb_refl.
  - destruct (fst g =? n) eqn:He; [|exact IH].
    apply Nat.eqb_eq in He. subst n. contradiction.
Qed.

(** Wherever the mobile template of a brand matches, its model group holds
    exactly two characters: the lazy span is followed by optional groups
    only, so it never grows beyond its minimum. *)
Theorem mobile_model_is_two_characters (brand : string) (cleaned : str)
        (p : nat) (m : mstate) :
  search true (mobile_pattern brand) cleaned = Some (p, m) ->
  exists c1 c2, group 2 m = Some [c1; c2].
Proof.
  intros H. apply search_from_inv in H. destruct H as (bef & aft & H).
  unfold match_at, mobile_pattern in H. cbn [seqs] in H. cbn [run] in H.
  apply run_inv in H. destruct H as (st1 & _ & H).
  apply run_inv in H. destruct H as (st2 & _ & H).
  unfold one_char in H. destruct (after st2) as [|c1 tl1] eqn:Ha2; [discriminate|].
  destruct (set_matches true false _ c1); [|discriminate].
  apply lazy_plus_takes_one in H.
  2:{ intros st'. apply opt_never_refuses, opt_never_refuses. discriminate. }
  destruct H as (c2 & tl2 & Ha & H). simpl in Ha. subst tl1.
  apply run_inv in H. destruct H as (st4 & [_ _ (new1 & G1 & F1)] & H).
  apply run_inv in H. destruct H as (st5 & [_ _ (new2 & G2 & F2)] & H).
  injection H as <-. exists c1, c2.
  cbn [groups pos advance] in G1.
  replace (S (S (pos st2)) - pos st2) with 2 in G1 by lia. cbn [firstn] in G1.
  unfold group. rewrite G2, G1, app_assoc.
  rewrite (group_under_new 2 [c1; c2] (new2 ++ new1) _ [3; 4]); [reflexivity| |].
  - apply Forall_app. split.
    + eapply Forall_impl; [|exact F2]. simpl. intros g [Hg|[]]. now right; left.
    + eapply Forall_impl; [|exact F1]. simpl. intros g [Hg|[]]. now left.
  - simpl. intros [Hx|[Hx|[]]]; discriminate.
Qed.

(** Wherever the laptop template of a brand matches, its model group holds
    exactly one character. *)
Theorem laptop_model_is_one_character (brand : string) (cleaned : str)
        (p : nat) (m : mstate) :
  search true (laptop_pattern brand) cleaned = Some (p, m) ->
  exists c, group 2 m = Some [c].
Proof.
  intros H. apply search_from_inv in H. destruct H as (bef & aft & H).
  unfold match_at, laptop_pattern in H. cbn [seqs] in H. cbn [run] in H.
  apply run_inv in H. destruct H as (st1 & _ & H).
  apply run_inv in H. destruct H as (st2 & _ & H).
  apply lazy_plus_takes_one in H.
  2:{ intros st'. apply opt_never_refuses. discriminate. }
  destruct H as (c & tl & Ha & H).
  apply run_inv in H. destruct H as (st4 & [_ _ (new & G & F)] & H).
  injection H as <-. exists c.
  cbn [groups pos advance] in G.
  replace (S (pos st2) - pos st2) with 1 in G by lia. rewrite Ha in G.
  cbn [firstn] in G.
  unfold group. rewrite G.
  rewrite (group_under_new 2 [c] new _ [3]); [reflexivity| |].
  - eapply Forall_impl; [|exact F]. simpl. intros g [Hg|[]]. now left.
  - simpl. intros [Hx|[]]. discriminate.
Qed.

(** ** The Pattern Extractor on the documented titles *)

(** C4. On "Samsung Galaxy A15 8GB/256GB PTA Approved Official Warranty Fast
    Shipping" the extractor returns "Samsung Ga": the brand is there and the
    noise words are gone, but the model span stops after two characters, so
    neither "Galaxy A15" nor the "8GB" and "256GB" tokens are in the output. *)
Theorem samsung_scenario_output :
  let out := clean_title_with_regex
    (of_string "Samsung Galaxy A15 8GB/256GB PTA Approved Official Warranty Fast Shipping") in
  out = of_string "Samsung Ga" /\
  contains (of_string "Samsung") out = true /\
  contains (of_string "Galaxy A15") out = false /\
  contains (of_string "8GB") out = false /\
  contains (of_string "256GB") out = false /\
  contains (of_string "PTA") out = false /\
  contains (of_string "Approved") out = false /\
  contains (of_string "Warranty") out = false /\
  contains (of_string "Shipping") out = false.
Proof. vm_compute. repeat split. Qed.

(** C5. The cleaned title "Samsung Galaxy A15 8GB 256GB" is not returned
    unchanged: a pass of the extractor cuts it down to "Samsung Ga". *)
Theorem cleaned_title_is_cut_again :
  clean_title_with_regex (of_string "Samsung Galaxy A15 8GB 256GB")
    = of_string "Samsung Ga" /\
  clean_title_with_regex (of_string "Samsung Galaxy A15 8GB 256GB")
    <> of_string "Samsung Galaxy A15 8GB 256GB".
Proof. split; vm_compute; [reflexivity | discriminate]. Qed.

(** C6. On "HP Pavilion Gaming Laptop i5 11th Gen 8GB RAM 512GB SSD Official
    Warranty" the extractor returns "HP P 8GB 512GB": "HP", "8GB" and "512GB"
    are there and "Warranty" is gone, but "Pavilion Gaming" and the i5
    processor token are missing. *)
Theorem hp_scenario_output :
  let out := clean_title_with_regex
    (of_string "HP Pavilion Gaming Laptop i5 11th Gen 8GB RAM 512GB SSD Official Warranty") in
  out = of_string "HP P 8GB 512GB" /\
  contains (of_string "HP") out = true /\
  contains (of_string "8GB") out = true /\
  contains (of_string "512GB") out = true /\
  contains (of_string "Warranty") out = false /\
  contains (of_string "Pavilion Gaming") out = false /\
  contains (of_string "i5") out = false.
Proof. vm_compute. repeat split. Qed.

(** The extractor on the sample titles of [test_endpoint]. *)
Example test_titles_output :
  map clean_title_with_regex test_titles
    = map of_string ["Samsung Ga"; "iPhone 13"; "HP P 8GB 512GB"; "Xiaomi Re"]%string.
Proof. vm_compute. reflexivity. Qed.

(** ** The AI cleaner and the cache *)

Lemma clean_title_with_ai_enabled (E : env) (title : str) (w : world) :
  AI_ENABLED E = true ->
  clean_title_with_ai E title w =
    (Ok (ai_value (generate_content E (List.length (calls w)) (build_prompt title))),
     log_call (Call (build_prompt title) (deadline E)) w).
Proof.
  intros HE. unfold clean_title_with_ai, bind, complete. rewrite HE. simpl.
  now destruct (generate_content E _ _).
Qed.

Lemma clean_title_with_ai_disabled (E : env) (title : str) (w : world) :
  AI_ENABLED E = false ->
  clean_title_with_ai E title w = (Ok None, w).
Proof.
  intros HE. unfold clean_title_with_ai. now rewrite HE.
Qed.

(** The AI cleaner swallows every failure: it returns, it never raises. *)
Lemma clean_title_with_ai_returns (E : env) (title : str) (w : world) :
  exists v w', clean_title_with_ai E title w = (Ok v, w').
Proof.
  destruct (AI_ENABLED E) eqn:HE.
  - rewrite clean_title_with_ai_enabled by assumption. eauto.
  - rewrite clean_title_with_ai_disabled by assumption. eauto.
Qed.


Lemma cached_clean_title_miss (E : env) (title : str) (w : world) :
  AI_ENABLED E = true ->
  cache_get title (cache w) = None ->
  let v := ai_value (generate_content E (List.length (calls w)) (build_prompt title)) in
  cached_clean_title E title w =
    (Ok v,
     set_cache (cache_put title v (cache w))
               (log_call (Call (build_prompt title) (deadline E)) (count_miss w))).
Proof.
  intros HE H. unfold cached_clean_title. rewrite H.
  rewrite clean_title_with_ai_enabled by assumption. reflexivity.
Qed.

Lemma cached_clean_title_returns (E : env) (title : str) (w : world) :
  exists v w', cached_clean_title E title w = (Ok v, w').
Proof.
  unfold cached_clean_title.
  destruct (cache_get title (cache w)) as [v|]; [eauto|].
  destruct (clean_title_with_ai_returns E title (count_miss w)) as (v & w' & ->).
  eauto.
Qed.







(** ** The single-title endpoint *)

Lemma cached_clean_title_reads (E : env) (title : str) (w : world) :
  reads (snd (cached_clean_title E title w)) = reads w.
Proof.
  unfold cached_clean_title.
  destruct (cache_get title (cache w)); [reflexivity|].
  unfold clean_title_with_ai, bind, complete, ret.
  destruct (AI_ENABLED E); simpl; [|reflexivity].
  now destruct (generate_content E _ _).
Qed.

(** PLAN A always comes back with a value: every exception in it is caught. *)
Lemma plan_a_returns (E : env) (title : sequence) (timeout : json) (start : Q) (w : world) :
  exists r w', plan_a E title timeout start w = (Ok r, w').
Proof.
  unfold plan_a, catch, ret.
  destruct (AI_ENABLED E); [|eauto].
  match goal with |- context [match ?c with _ => _ end] => destruct c as [[r|e] w'] end;
    eauto.
Qed.

(** A list title never gets an AI result. *)
Lemma plan_a_list (E : env) (items : list json) (timeout : json) (start : Q) (w : world) :
  plan_a E (SeqList items) timeout start w = (Ok None, w).
Proof.
  unfold plan_a, catch, bind, ret. simpl. now destruct (AI_ENABLED E).
Qed.

Lemma plan_a_str (E : env) (title : str) (timeout : json) (start : Q) (w : world) :
  exists r, plan_a E (SeqStr title) timeout start w = (Ok r, after_plan_a E title w).
Proof.
  unfold plan_a, after_plan_a, catch, bind, lift, ret, now. simpl.
  destruct (AI_ENABLED E); [|eauto].
  destruct (cached_clean_title_returns E title w) as (v & w' & ->). simpl.
  destruct (float_gt _ timeout) as [[|]|e]; eauto.
Qed.



Lemma clean_title_try_str (E : env) (c : char) (rest : str) (timeout : json) (w : world) :
  let title := c :: rest in
  let start := time_time E (reads w) in
  exists ai_result ms,
    plan_a E (SeqStr title) timeout start (tick w)
      = (Ok ai_result, after_plan_a E title (tick w)) /\
    clean_title_try E (JStr title) timeout w
      = (Ok (reply_for title ai_result ms), tick (after_plan_a E title (tick w))).
Proof.
  intros title start.
  destruct (plan_a_str E title timeout start (tick w)) as (r & Hr).
  exists r. unfold_m. simpl. fold start. rewrite Hr.
  eexists. split; [reflexivity|].
  unfold reply_for. destruct r as [[|c' rest']|]; reflexivity.
Qed.

Lemma clean_title_endpoint_object (E : env) (fields : list (str * json)) (w : world) :
  clean_title_endpoint E (JObj fields) w =
    match clean_title_try E (title_of fields) (timeout_of fields) w with
    | (Ok resp, w') => (Ok resp, w')
    | (Raise e, w') => (Ok (ultimate_fallback (title_of fields) e), w')
    end.
Proof. reflexivity. Qed.

Lemma clean_title_try_falsy (E : env) (title timeout : json) (w : world) :
  truthy title = false ->
  clean_title_try E title timeout w = (Ok (BadRequest (of_string "No title provided")), w).
Proof.
  intros H. unfold clean_title_try. now rewrite H.
Qed.

(** A truthy title that is not a string ends in the [except] block. *)
Lemma clean_title_try_not_str (E : env) (title timeout : json) (w : world) :
  truthy title = true ->
  (forall s, title <> JStr s) ->
  exists e, clean_title_try E title timeout w = (Raise e, world_after E title w).
Proof.
  intros Ht Hns. unfold clean_title_try, world_after. rewrite Ht. simpl.
  destruct title as [|b|q|s|items|fields]; try (unfold bind, lift; simpl; eauto; fail).
  - now elim (Hns s).
  - unfold bind, lift, now. simpl. rewrite plan_a_list. simpl. eauto.
Qed.








(** ** The caller's timeout and the completion *)

Lemma cached_clean_title_calls (E : env) (title : str) (w : world) :
  calls (snd (cached_clean_title E title w)) = calls w \/
  calls (snd (cached_clean_title E title w))
    = calls w ++ [Call (build_prompt title) (if has_SIGALRM E then Some 3 else None)].
Proof.
  unfold cached_clean_title.
  destruct (cache_get title (cache w)); [now left|].
  destruct (AI_ENABLED E) eqn:HE.
  - rewrite clean_title_with_ai_enabled by assumption. now right.
  - rewrite clean_title_with_ai_disabled by assumption. now left.
Qed.

(** What PLAN A keeps is nothing or what the cached cleaner returned. *)
Lemma plan_a_value (E : env) (title : str) (timeout : json) (start : Q) (w : world)
      (r : option str) (w' : world) :
  plan_a E (SeqStr title) timeout start w = (Ok r, w') ->
  r = None \/ fst (cached_clean_title E title w) = Ok r.
Proof.
  unfold plan_a, catch, bind, lift, ret, now. simpl.
  destruct (AI_ENABLED E); [|intros [= <- _]; now left].
  destruct (cached_clean_title E title w) as [[v|e] w1]; simpl.
  - destruct (float_gt _ timeout) as [[|]|e]; intros [= <- _]; auto.
  - intros [= <- _]. now left.
Qed.

Lemma clean_title_endpoint_world (E : env) (fields : list (str * json)) (w : world) :
  snd (clean_title_endpoint E (JObj fields) w) = world_after E (title_of fields) w.
Proof.
  rewrite clean_title_endpoint_object.
  destruct (truthy (title_of fields)) eqn:Ht.
  2:{ rewrite clean_title_try_falsy by assumption. unfold world_after. now rewrite Ht. }
  destruct (title_of fields) as [|b|q|s|items|fs] eqn:Htitle.
  4:{ destruct s as [|c rest]; [discriminate|].
      destruct (clean_title_try_str E c rest (timeout_of fields) w) as (r & ms & _ & ->).
      reflexivity. }
  all: match goal with
       | |- context [clean_title_try ?E0 ?t ?tm ?w0] =>
           destruct (clean_title_try_not_str E0 t tm w0 Ht) as (e & ->);
             [intros s; discriminate|reflexivity]
       end.
Qed.

(** C10. Two requests with the same title and any two timeout values leave
    the same process state behind: the same cache and counters, the same
    clock readings and the same log of completions. The request adds at most
    one completion to the log, whose prompt is built from the title alone and
    whose alarm is the constant 3 (where the platform has an alarm). When
    both replies come from the AI, they carry the same string. *)
Theorem timeout_never_reaches_the_completion
        (E : env) (fields1 fields2 : list (str * json)) (w : world) :
  title_of fields1 = title_of fields2 ->
  let run1 := clean_title_endpoint E (JObj fields1) w in
  let run2 := clean_title_endpoint E (JObj fields2) w in
  snd run1 = snd run2 /\
  (calls (snd run1) = calls w \/
   exists s,
     title_of fields1 = JStr s /\
     calls (snd run1)
       = calls w ++ [Call (build_prompt s) (if has_SIGALRM E then Some 3 else None)]) /\
  (forall r1 r2,
     fst run1 = Ok (Reply r1) -> fst run2 = Ok (Reply r2) ->
     method r1 = M_ai -> method r2 = M_ai ->
     cleaned r1 = cleaned r2).
Proof.
  intros Ht run1 run2. subst run1 run2.
  rewrite !clean_title_endpoint_world, <- Ht.
  split; [reflexivity|]. split.
  - unfold world_after.
    destruct (truthy (title_of fields1)); [|now left].
    destruct (title_of fields1) as [|b|q|s|items|fs]; try (now left).
    unfold after_plan_a. destruct (AI_ENABLED E); [|now left].
    destruct (cached_clean_title_calls E s (tick w)) as [H|H]; simpl in *.
    + now left.
    + right. exists s. split; [reflexivity|exact H].
  - intros r1 r2. rewrite !clean_title_endpoint_object, <- Ht.
    destruct (truthy (title_of fields1)) eqn:Htruthy.
    2:{ rewrite !clean_title_try_falsy by assumption. discriminate. }
    destruct (title_of fields1) as [|b|q|s|items|fs] eqn:Htitle.
    4:{ destruct s as [|c rest]; [discriminate|].
        destruct (clean_title_try_str E c rest (timeout_of fields1) w)
          as (a1 & ms1 & Hp1 & ->).
        destruct (clean_title_try_str E c rest (timeout_of fields2) w)
          as (a2 & ms2 & Hp2 & ->).
        apply plan_a_value in Hp1, Hp2. simpl.
        unfold reply_for.
        destruct a1 as [[|c1 rest1]|]; intros [= <-]; try discriminate;
          destruct a2 as [[|c2 rest2]|]; intros [= <-]; try discriminate.
        intros _ _. simpl.
        destruct Hp1 as [Hp1|Hp1]; [discriminate|].
        destruct Hp2 as [Hp2|Hp2]; [discriminate|].
        congruence. }
    all: match goal with
         | |- context [fst match clean_title_try ?E0 ?t ?tm ?w0 with _ => _ end = _ -> _] =>
             destruct (clean_title_try_not_str E0 t tm w0 Htruthy)
               as (e1 & ->); [intros s; discriminate|]
         end;
         simpl; intros [= <-]; discriminate.
Qed.

Lemma timeout_never_reaches_the_completion_witness :
  snd (clean_title_endpoint (env_answering "HP Pavilion 8GB" 2)
                            (request_with "HP Pavilion Sale" (JNum 1)) startup)
  = snd (clean_title_endpoint (env_answering "HP Pavilion 8GB" 2)
                              (request_with "HP Pavilion Sale" (JNum 30)) startup).
Proof.
  exact (proj1 (timeout_never_reaches_the_completion
                  (env_answering "HP Pavilion 8GB" 2)
                  [(of_string "title", JStr (of_string "HP Pavilion Sale"));
                   (of_string "timeout", JNum 1)]
                  [(of_string "title", JStr (of_string "HP Pavilion Sale"));
                   (of_string "timeout", JNum 30)]
                  startup eq_refl)).
Defined.

(** ** The batch endpoint *)

Lemma ai_attempt_returns (E : env) (title : str) (w : world) :
  exists v, fst (ai_attempt E title w) = Ok v.
Proof.
  unfold ai_attempt. destruct (AI_ENABLED E); [|simpl; eauto].
  destruct (cached_clean_title_returns E title w) as (v & w' & ->). simpl. eauto.
Qed.

Lemma clean_batch_item_eq (E : env) (title : str) (w : world) :
  clean_batch_item E title w =
    (Ok (title, keep_or_extract title (fst (ai_attempt E title w))),
     snd (ai_attempt E title w)).
Proof.
  unfold clean_batch_item, ai_attempt, keep_or_extract, bind, catch, ret.
  destruct (AI_ENABLED E); [|reflexivity].
  destruct (cached_clean_title_returns E title w) as (v & w' & ->). simpl.
  now destruct v as [[|c rest]|].
Qed.

Lemma clean_batch_cons (E : env) (title : str) (rest : list str) (w : world) :
  clean_batch E (title :: rest) w =
    match clean_batch E rest (snd (ai_attempt E title w)) with
    | (Ok results, w') =>
        (Ok ((title, keep_or_extract title (fst (ai_attempt E title w))) :: results), w')
    | (Raise e, w') => (Raise e, w')
    end.
Proof.
  simpl. unfold bind at 1. rewrite clean_batch_item_eq.
  unfold bind, ret. now destruct (clean_batch E rest _) as [[results|e] w'].
Qed.





(** * Further properties of the code *)

(** ** Whitespace in the extractor's output *)

Lemma space_matches (c : char) : set_matches false false [CSpace] c = is_space c.
Proof. unfold set_matches, set_has. simpl. apply orb_false_r. Qed.

Lemma run_space (st : mstate) (k : mstate -> option mstate) :
  run false space st k =
    match after st with
    | [] => None
    | c :: tl => if is_space c then k (advance st c tl) else None
    end.
Proof.
  unfold space. cbn [run]. unfold one_char.
  destruct (after st) as [|c tl]; [reflexivity|]. now rewrite space_matches.
Qed.

(** From the second iteration on, the greedy [\s+] in front of a
    continuation that accepts everything runs to the end of the whitespace. *)
Lemma greedy_spaces_loop :
  forall aft bef p g fuel count,
    List.length aft <= fuel ->
    1 <= count ->
    exists st',
      rep_loop (run false space) 1 None true (fun s => Some s) fuel count
               (MState bef aft p g) = Some st' /\
      pos st' = p + leading_spaces aft.
Proof.
  induction aft as [|c tl IH]; intros bef p g fuel count Hfuel Hcount;
    rewrite rep_loop_eq; cbv zeta.
  - rewrite (proj2 (Nat.ltb_ge count 1) Hcount).
    exists (MState bef [] p g). split; [|simpl; lia].
    destruct fuel; reflexivity.
  - destruct fuel as [|fuel]; [simpl in Hfuel; lia|].
    rewrite (proj2 (Nat.ltb_ge count 1) Hcount).
    cbn [under]. rewrite run_space. cbn [after].
    simpl leading_spaces.
    destruct (is_space c).
    + cbn [advance pos before groups].
      replace (S p =? p) with false by (symmetry; apply Nat.eqb_neq; lia).
      rewrite andb_false_r. unfold advance. cbn [before groups pos].
      destruct (IH (c :: bef) (S p) g fuel (S count)) as (st' & -> & Hpos);
        [simpl in Hfuel; lia | lia |].
      exists st'. split; [reflexivity | lia].
    + exists (MState bef (c :: tl) p g). split; [reflexivity | simpl; lia].
Qed.

(** [\s+] matches at a position exactly when whitespace starts there, and
    then up to the end of that whitespace. *)
Lemma spaces_match_at (bef aft : str) (p : nat) :
  match leading_spaces aft with
  | 0 => match_at false re_spaces false bef aft p = None
  | S n =>
      exists st', match_at false re_spaces false bef aft p = Some st' /\
                  pos st' = p + S n
  end.
Proof.
  unfold match_at, re_spaces, plus. cbn [run andb].
  rewrite rep_loop_eq. cbv zeta. cbn [Nat.add Nat.ltb Nat.leb under].
  rewrite run_space. cbn [after pos].
  destruct aft as [|c tl]; [reflexivity|].
  simpl leading_spaces.
  destruct (is_space c); [|reflexivity].
  cbn [advance pos before groups andb].
  destruct (greedy_spaces_loop tl (c :: bef) (S p) [] (List.length (c :: tl)) 1)
    as (st' & H & Hpos); [simpl; lia | lia |].
  exists st'. split; [exact H | lia].
Qed.

(** [re.sub(r'\s+', ' ', s)] puts one space for every run of whitespace. *)
Lemma sub_spaces_from :
  forall aft bef p,
    sub_from false re_spaces sp bef aft p 0 = squeeze false aft /\
    sub_from false re_spaces sp bef aft p (leading_spaces aft) = squeeze true aft.
Proof.
  induction aft as [|c tl IH]; intros bef p.
  - split; reflexivity.
  - assert (HA : sub_from false re_spaces sp bef (c :: tl) p 0 = squeeze false (c :: tl)).
    { cbn [sub_from].
      pose proof (spaces_match_at bef (c :: tl) p) as Hm.
      simpl leading_spaces in Hm. simpl squeeze.
      destruct (is_space c).
      - destruct Hm as (st' & -> & Hpos).
        replace (pos st' =? p) with false by (symmetry; apply Nat.eqb_neq; lia).
        replace (pos st' - p - 1) with (leading_spaces tl) by lia.
        now rewrite (proj2 (IH (c :: bef) (S p))).
      - rewrite Hm. now rewrite (proj1 (IH (c :: bef) (S p))). }
    split; [exact HA|].
    simpl leading_spaces. simpl squeeze.
    destruct (is_space c) eqn:Hc.
    + cbn [sub_from]. apply (proj2 (IH (c :: bef) (S p))).
    + rewrite HA. simpl. now rewrite Hc.
Qed.

Lemma sub_spaces (s : str) : sub false re_spaces sp s = squeeze false s.
Proof. apply (proj1 (sub_spaces_from s [] 0)). Qed.

Lemma squeeze_spaced : forall s b, spaced b (squeeze b s).
Proof.
  induction s as [|c tl IH]; intros b; simpl; [exact I|].
  destruct (is_space c) eqn:Hc.
  - destruct b; [apply IH|].
    simpl. split; [intros _; now split | apply IH].
  - simpl. rewrite Hc. split; [discriminate | apply IH].
Qed.

Lemma spaced_weaken : forall s b, spaced b s -> spaced false s.
Proof.
  destruct s as [|c tl]; intros b H; simpl in *; [exact I|].
  destruct H as [H1 H2]. split; [|exact H2].
  intros Hc. split; [reflexivity | apply (H1 Hc)].
Qed.

Lemma lstrip_spaced : forall s b, spaced b s -> spaced true (lstrip s).
Proof.
  induction s as [|c tl IH]; intros b H; simpl in *; [exact I|].
  destruct H as [H1 H2].
  destruct (is_space c) eqn:Hc.
  - apply (IH _ H2).
  - simpl. rewrite Hc. split; [discriminate | exact H2].
Qed.

Lemma spaced_prefix : forall s t b, spaced b (s ++ t) -> spaced b s.
Proof.
  induction s as [|c tl IH]; intros t b H; simpl in *; [exact I|].
  destruct H as [H1 H2]. split; [exact H1 | apply (IH _ _ H2)].
Qed.

Lemma lstrip_suffix (s : str) : exists pre, s = pre ++ lstrip s.
Proof.
  induction s as [|c tl [pre IH]]; simpl.
  - now exists [].
  - destruct (is_space c).
    + exists (c :: pre). simpl. now f_equal.
    + now exists [].
Qed.

Lemma rstrip_prefix (s : str) : exists post, s = rstrip s ++ post.
Proof.
  unfold rstrip. destruct (lstrip_suffix (rev s)) as [pre H].
  exists (rev pre).
  rewrite <- rev_app_distr, <- H. symmetry. apply rev_involutive.
Qed.

Lemma lstrip_head (s : str) (c : char) (tl : str) :
  lstrip s = c :: tl -> is_space c = false.
Proof.
  induction s as [|a s IH]; simpl; [discriminate|].
  destruct (is_space a) eqn:Ha; [exact IH|].
  intros [= <- _]. exact Ha.
Qed.

Lemma rstrip_last (s pre : str) (c : char) :
  rstrip s = pre ++ [c] -> is_space c = false.
Proof.
  unfold rstrip. intros H.
  apply (f_equal (@rev char)) in H.
  rewrite rev_involutive, rev_app_distr in H. simpl in H.
  exact (lstrip_head _ _ _ H).
Qed.

(** X1. The text the extractor returns is whitespace-normalised: it does not
    start or end with whitespace, and every whitespace character in it is a
    plain space that does not follow another whitespace character. *)
Theorem extractor_output_is_spaced (title : str) :
  spaced true (clean_title_with_regex title) /\
  (forall pre c, clean_title_with_regex title = pre ++ [c] -> is_space c = false).
Proof.
  unfold clean_title_with_regex. cbv zeta. rewrite sub_spaces.
  set (body := squeeze false _). unfold strip. split.
  - destruct (rstrip_prefix (lstrip body)) as [post H].
    apply spaced_prefix with (t := post). rewrite <- H.
    apply lstrip_spaced with (b := false). apply squeeze_spaced.
  - intros pre c H. exact (rstrip_last _ _ _ H).
Qed.

(** ** Matches take at least the minimal length of their pattern *)

Lemma run_reach (ic : bool) (r : regex) :
  forall st k m,
    run ic r st k = Some m ->
    exists st',
      k st' = Some m /\
      pos st + min_len r <= pos st' /\
      pos st' + List.length (after st') = pos st + List.length (after st).
Proof.
  induction r as [|x| |neg items| | |a IHa b IHb|a IHa b IHb|lo hi greedy a IHa|n a IHa];
    intros st k m H; cbn [run] in H; cbn [min_len].
  - exists st. repeat split; [exact H | lia].
  - unfold one_char in H. destruct (after st) as [|c tl] eqn:Ha; [discriminate|].
    destruct (lit_matches ic x c); [|discriminate].
    exists (advance st c tl). simpl. repeat split; [exact H | lia | lia].
  - unfold one_char in H. destruct (after st) as [|c tl] eqn:Ha; [discriminate|].
    destruct (negb (c =? 10)%N); [|discriminate].
    exists (advance st c tl). simpl. repeat split; [exact H | lia | lia].
  - unfold one_char in H. destruct (after st) as [|c tl] eqn:Ha; [discriminate|].
    destruct (set_matches ic neg items c); [|discriminate].
    exists (advance st c tl). simpl. repeat split; [exact H | lia | lia].
  - destruct (at_word_boundary st); [|discriminate].
    exists st. repeat split; [exact H | lia].
  - destruct (at_end st); [|discriminate].
    exists st. repeat split; [exact H | lia].
  - apply IHa in H. destruct H as (st1 & H & P1 & T1).
    apply IHb in H. destruct H as (st2 & H & P2 & T2).
    exists st2. repeat split; [exact H | lia | lia].
  - unfold or_else in H. destruct (run ic a st k) eqn:Hra.
    + injection H as ->. apply IHa in Hra. destruct Hra as (st1 & H & P1 & T1).
      exists st1. repeat split; [exact H | lia | lia].
    + apply IHb in H. destruct H as (st1 & H & P1 & T1).
      exists st1. repeat split; [exact H | lia | lia].
  - assert (Hloop : forall fuel count st0,
              rep_loop (run ic a) lo hi greedy k fuel count st0 = Some m ->
              exists st',
                k st' = Some m /\
                pos st0 + (lo - count) * min_len a <= pos st' /\
                pos st' + List.length (after st') = pos st0 + List.length (after st0)).
    { induction fuel as [|fuel IHf]; intros count st0 H0; rewrite rep_loop_eq in H0;
        cbv zeta in H0.
      - destruct (count <? lo) eqn:Hc; [discriminate|].
        apply Nat.ltb_ge in Hc.
        assert (Hk : k st0 = Some m).
        { destruct greedy; simpl in H0; [exact H0|]. now destruct (k st0). }
        exists st0. replace (lo - count) with 0 by lia.
        repeat split; [exact Hk | lia].
      - assert (Hcases :
          (lo <= count /\ k st0 = Some m) \/
          run ic a st0 (fun st' =>
            if (lo <=? count) && (pos st' =? pos st0) then None
            else rep_loop (run ic a) lo hi greedy k fuel (S count) st') = Some m).
        { destruct (count <? lo) eqn:Hc.
          - destruct (under hi count); [now right | discriminate].
          - apply Nat.ltb_ge in Hc.
            destruct (under hi count); destruct greedy; unfold or_else in H0.
            + destruct (run ic a st0 _); [now right | now left].
            + destruct (k st0); [now left | now right].
            + now left.
            + destruct (k st0); [now left | discriminate]. }
        destruct Hcases as [[Hc Hk]|Hbody].
        + exists st0. replace (lo - count) with 0 by lia.
          repeat split; [exact Hk | lia].
        + apply IHa in Hbody. destruct Hbody as (st1 & H1 & P1 & T1).
          destruct ((lo <=? count) && (pos st1 =? pos st0)); [discriminate|].
          apply IHf in H1. destruct H1 as (st2 & Hk & P2 & T2).
          exists st2. repeat split; [exact Hk | | lia].
          assert ((lo - count) * min_len a
                  <= min_len a + (lo - S count) * min_len a).
          { destruct (Nat.le_gt_cases lo count) as [Hle|Hgt].
            - replace (lo - count) with 0 by lia. lia.
            - replace (lo - count) with (S (lo - S count)) by lia. simpl. lia. }
          lia. }
    apply Hloop in H. destruct H as (st' & Hk & P & T).
    exists st'. repeat split; [exact Hk | | exact T].
    now rewrite Nat.sub_0_r in P.
  - apply IHa in H. destruct H as (st1 & H & P1 & T1).
    eexists. split; [exact H|]. simpl. split; lia.
Qed.

(** A text shorter than the minimal length of a pattern holds no match. *)
Lemma match_at_short (ic : bool) (r : regex) (adv : bool) (bef aft : str) (p : nat) :
  List.length aft < min_len r ->
  match_at ic r adv bef aft p = None.
Proof.
  intros Hlen. unfold match_at.
  destruct (run ic r _ _) as [m|] eqn:H; [|reflexivity].
  apply run_reach in H. destruct H as (st' & _ & P & T). simpl in P, T. lia.
Qed.

(** A match of a pattern that cannot match the empty text moves on. *)
Lemma match_at_moves (ic : bool) (r : regex) (adv : bool) (bef aft : str) (p : nat)
      (m : mstate) :
  1 <= min_len r ->
  match_at ic r adv bef aft p = Some m ->
  p < pos m.
Proof.
  intros Hmin H. unfold match_at in H.
  apply run_reach in H. destruct H as (st' & H & P & _). simpl in P.
  destruct (adv && (pos st' =? p)); [discriminate|].
  injection H as <-. lia.
Qed.

Lemma sub_from_short (ic : bool) (r : regex) (repl : str) :
  forall aft bef p,
    List.length aft < min_len r ->
    sub_from ic r repl bef aft p 0 = aft.
Proof.
  induction aft as [|c tl IH]; intros bef p Hlen; cbn [sub_from];
    rewrite (match_at_short ic r false bef _ p Hlen); [reflexivity|].
  f_equal. apply IH. simpl in Hlen. lia.
Qed.

Lemma strip_length (s : str) : List.length (strip s) <= List.length s.
Proof.
  unfold strip.
  destruct (rstrip_prefix (lstrip s)) as [post H1].
  destruct (lstrip_suffix s) as [pre H2].
  apply (f_equal (@List.length char)) in H1, H2.
  rewrite length_app in H1, H2. lia.
Qed.

(** In the mobile branch the step that is to cut trailing junk off the
    model never removes anything: the model it gets has at most two
    characters, and the junk pattern needs four. *)
Lemma trailing_junk_step_changes_nothing (brand : string) (cleaned : str)
        (p : nat) (m : mstate) :
  search true (mobile_pattern brand) cleaned = Some (p, m) ->
  sub true re_trailing_junk [] (strip (group_or_empty 2 m))
    = strip (group_or_empty 2 m).
Proof.
  intros H. destruct (mobile_model_is_two_characters brand cleaned p m H)
    as (c1 & c2 & Hg).
  unfold group_or_empty. rewrite Hg.
  apply sub_from_short.
  pose proof (strip_length [c1; c2]) as Hlen. simpl in Hlen.
  change (min_len re_trailing_junk) with 4. lia.
Qed.

(** X2. Whenever the mobile branch rebuilds a title, the rebuilt text is
    made of the brand as it is written in the title, exactly two characters
    of model, and the RAM and storage groups: the model span never grows
    past its minimum, and the trailing-junk step has nothing to remove. *)
Theorem mobile_branch_keeps_two_model_characters
        (brand : string) (cleaned out : str) :
  mobile_try cleaned brand = Some out ->
  exists p m c1 c2,
    search true (mobile_pattern brand) cleaned = Some (p, m) /\
    group 2 m = Some [c1; c2] /\
    out = strip (group_or_empty 1 m ++ sp ++ strip [c1; c2] ++ sp
                 ++ group_or_empty 3 m ++ sp ++ group_or_empty 4 m).
Proof.
  unfold mobile_try.
  destruct (search true (mobile_pattern brand) cleaned) as [[p m]|] eqn:H;
    [|discriminate].
  cbv zeta. intros [= <-].
  destruct (mobile_model_is_two_characters brand cleaned p m H) as (c1 & c2 & Hg).
  exists p, m, c1, c2. split; [reflexivity|]. split; [exact Hg|].
  rewrite (trailing_junk_step_changes_nothing brand cleaned p m H).
  unfold group_or_empty at 2. now rewrite Hg.
Qed.

Lemma mobile_branch_keeps_two_model_characters_witness :
  exists p m c1 c2,
    search true (mobile_pattern "Samsung") (of_string "Samsung Galaxy A15 8GB 256GB")
      = Some (p, m) /\
    group 2 m = Some [c1; c2] /\
    of_string "Samsung Ga"
      = strip (group_or_empty 1 m ++ sp ++ strip [c1; c2] ++ sp
               ++ group_or_empty 3 m ++ sp ++ group_or_empty 4 m).
Proof.
  apply (mobile_branch_keeps_two_model_characters
           "Samsung" (of_string "Samsung Galaxy A15 8GB 256GB") (of_string "Samsung Ga")).
  vm_compute. reflexivity.
Defined.

(** X3. Whenever the laptop branch rebuilds a title, the rebuilt text is
    made of the brand as written, exactly one character of model, the
    processor group, and the RAM and storage found anywhere in the text. *)
Theorem laptop_branch_keeps_one_model_character
        (brand : string) (cleaned out : str) :
  laptop_try cleaned brand = Some out ->
  exists p m c ram storage,
    search true (laptop_pattern brand) cleaned = Some (p, m) /\
    group 2 m = Some [c] /\
    ram = match search true re_ram cleaned with
          | Some (_, rm) => group_or_empty 1 rm
          | None => []
          end /\
    storage = match search true re_storage cleaned with
              | Some (_, sm) => group_or_empty 1 sm
              | None => []
              end /\
    out = strip (group_or_empty 1 m ++ sp ++ strip [c] ++ sp
                 ++ group_or_empty 3 m ++ sp ++ ram ++ sp ++ storage).
Proof.
  unfold laptop_try.
  destruct (search true (laptop_pattern brand) cleaned) as [[p m]|] eqn:H;
    [|discriminate].
  cbv zeta. intros [= <-].
  destruct (laptop_model_is_one_character brand cleaned p m H) as (c & Hg).
  exists p, m, c. eexists _, _.
  split; [reflexivity|]. split; [exact Hg|].
  split; [reflexivity|]. split; [reflexivity|].
  unfold group_or_empty at 2. now rewrite Hg.
Qed.

Lemma laptop_branch_keeps_one_model_character_witness :
  exists p m c ram storage,
    search true (laptop_pattern "HP")
           (of_string "HP Pavilion Gaming Laptop i5 8GB RAM 512GB SSD") = Some (p, m) /\
    group 2 m = Some [c] /\
    ram = match search true re_ram
                       (of_string "HP Pavilion Gaming Laptop i5 8GB RAM 512GB SSD") with
          | Some (_, rm) => group_or_empty 1 rm
          | None => []
          end /\
    storage = match search true re_storage
                           (of_string "HP Pavilion Gaming Laptop i5 8GB RAM 512GB SSD") with
              | Some (_, sm) => group_or_empty 1 sm
              | None => []
              end /\
    of_string "HP P  8GB 512GB"
      = strip (group_or_empty 1 m ++ sp ++ strip [c] ++ sp
               ++ group_or_empty 3 m ++ sp ++ ram ++ sp ++ storage).
Proof.
  apply (laptop_branch_keeps_one_model_character
           "HP" (of_string "HP Pavilion Gaming Laptop i5 8GB RAM 512GB SSD")
           (of_string "HP P  8GB 512GB")).
  vm_compute. reflexivity.
Defined.

(** ** Where the characters of the output come from *)

Lemma sub_from_incl (ic : bool) (r : regex) (repl : str) (x : char) :
  forall aft bef p skip,
    In x (sub_from ic r repl bef aft p skip) -> In x repl \/ In x aft.
Proof.
  induction aft as [|c tl IH]; intros bef p skip H; cbn [sub_from] in H.
  - destruct skip; [|contradiction].
    destruct (match_at ic r false bef [] p) as [st'|]; [|contradiction].
    destruct (pos st' =? p); [|now left].
    destruct (match_at ic r true bef [] p);
      apply in_app_or in H; destruct H as [H|H]; try (now left); contradiction.
  - assert (Hrec : forall n, In x (sub_from ic r repl (c :: bef) tl (S p) n) ->
                             In x repl \/ In x (c :: tl)).
    { intros n Hn. destruct (IH _ _ _ Hn); [now left | right; now right]. }
    assert (Hover : In x (c :: sub_from ic r repl (c :: bef) tl (S p) 0) ->
                    In x repl \/ In x (c :: tl)).
    { intros [->|Hn]; [right; now left | exact (Hrec _ Hn)]. }
    assert (Hrepl : forall n, In x (repl ++ sub_from ic r repl (c :: bef) tl (S p) n) ->
                              In x repl \/ In x (c :: tl)).
    { intros n Hn. apply in_app_or in Hn. destruct Hn as [Hn|Hn];
        [now left | exact (Hrec _ Hn)]. }
    destruct skip as [|n]; [|exact (Hrec _ H)].
    destruct (match_at ic r false bef (c :: tl) p) as [st'|]; [|exact (Hover H)].
    destruct (pos st' =? p); [|exact (Hrepl _ H)].
    destruct (match_at ic r true bef (c :: tl) p) as [st''|];
      apply in_app_or in H; destruct H as [H|H]; try (now left);
      [exact (Hrepl _ H) | exact (Hover H)].
Qed.

Lemma sub_incl (ic : bool) (r : regex) (repl s : str) (x : char) :
  In x (sub ic r repl s) -> In x repl \/ In x s.
Proof. apply sub_from_incl. Qed.

Lemma strip_incl (s : str) (x : char) : In x (strip s) -> In x s.
Proof.
  unfold strip. intros H.
  destruct (rstrip_prefix (lstrip s)) as [post H1].
  destruct (lstrip_suffix s) as [pre H2].
  rewrite H2. apply in_or_app. right. rewrite H1. apply in_or_app. now left.
Qed.

Lemma textual_advance (T : str) (st : mstate) (c : char) (tl : str) :
  after st = c :: tl -> textual T st -> textual T (advance st c tl).
Proof.
  intros Ha [H1 H2]. split; simpl; [|exact H2].
  intros y Hy. apply H1. rewrite Ha. now right.
Qed.

Lemma in_firstn (n : nat) (l : str) (x : char) : In x (firstn n l) -> In x l.
Proof.
  intros H. rewrite <- (firstn_skipn n l). apply in_or_app. now left.
Qed.

(** What a match holds in its groups is text of the input. *)
Lemma run_textual (ic : bool) (r : regex) (T : str) :
  forall st k m,
    textual T st ->
    run ic r st k = Some m ->
    exists st', textual T st' /\ k st' = Some m.
Proof.
  induction r as [|x| |neg items| | |a IHa b IHb|a IHa b IHb|lo hi greedy a IHa|n a IHa];
    intros st k m HT H; cbn [run] in H.
  - eauto.
  - unfold one_char in H. destruct (after st) as [|c tl] eqn:Ha; [discriminate|].
    destruct (lit_matches ic x c); [|discriminate].
    exists (advance st c tl). split; [now apply textual_advance | exact H].
  - unfold one_char in H. destruct (after st) as [|c tl] eqn:Ha; [discriminate|].
    destruct (negb (c =? 10)%N); [|discriminate].
    exists (advance st c tl). split; [now apply textual_advance | exact H].
  - unfold one_char in H. destruct (after st) as [|c tl] eqn:Ha; [discriminate|].
    destruct (set_matches ic neg items c); [|discriminate].
    exists (advance st c tl). split; [now apply textual_advance | exact H].
  - destruct (at_word_boundary st); [eauto | discriminate].
  - destruct (at_end st); [eauto | discriminate].
  - apply (IHa _ _ _ HT) in H. destruct H as (st1 & HT1 & H).
    apply (IHb _ _ _ HT1) in H. exact H.
  - unfold or_else in H. destruct (run ic a st k) eqn:Hra.
    + injection H as ->. exact (IHa _ _ _ HT Hra).
    + exact (IHb _ _ _ HT H).
  - revert HT H. generalize (lo + List.length (after st)) as fuel.
    generalize 0 as count. intros count fuel. revert count st.
    induction fuel as [|fuel IHf]; intros count st HT H; rewrite rep_loop_eq in H;
      cbv zeta in H.
    + assert (Hk : k st = Some m).
      { destruct (count <? lo); [discriminate|].
        destruct greedy; simpl in H; [exact H|]. now destruct (k st). }
      eauto.
    + assert (Hcases :
        k st = Some m \/
        run ic a st (fun st' =>
          if (lo <=? count) && (pos st' =? pos st) then None
          else rep_loop (run ic a) lo hi greedy k fuel (S count) st') = Some m).
      { destruct (under hi count).
        - destruct (count <? lo); [now right|].
          destruct greedy; unfold or_else in H.
          + destruct (run ic a st _); [now right | now left].
          + destruct (k st); [now left | now right].
        - destruct (count <? lo); [discriminate|].
          destruct greedy; unfold or_else in H; [now left|].
          destruct (k st); [now left | discriminate]. }
      destruct Hcases as [Hk|Hbody]; [eauto|].
      apply (IHa _ _ _ HT) in Hbody. destruct Hbody as (st1 & HT1 & H1).
      destruct ((lo <=? count) && (pos st1 =? pos st)); [discriminate|].
      exact (IHf _ _ HT1 H1).
  - apply (IHa _ _ _ HT) in H. destruct H as (st1 & [HA HG] & Hk).
    eexists. split; [|exact Hk]. split; simpl; [exact HA|].
    intros g [<-|Hg]; [|exact (HG g Hg)].
    simpl. intros y Hy. apply (proj1 HT). exact (in_firstn _ _ _ Hy).
Qed.

Lemma search_from_textual (ic : bool) (r : regex) (T : str) :
  forall aft bef p q m,
    incl aft T ->
    search_from ic r bef aft p = Some (q, m) ->
    textual T m.
Proof.
  assert (Hat : forall bef aft p m,
            incl aft T -> match_at ic r false bef aft p = Some m -> textual T m).
  { intros bef aft p m Hincl H. unfold match_at in H.
    apply (run_textual ic r T) in H.
    - destruct H as (st' & HT & H). simpl in H. now injection H as <-.
    - split; simpl; [exact Hincl | intros g []]. }
  induction aft as [|c tl IH]; intros bef p q m Hincl H; simpl in H.
  - destruct (match_at ic r false bef [] p) eqn:Hm; [|discriminate].
    injection H as <- <-. exact (Hat _ _ _ _ Hincl Hm).
  - destruct (match_at ic r false bef (c :: tl) p) eqn:Hm.
    + injection H as <- <-. exact (Hat _ _ _ _ Hincl Hm).
    + apply (IH _ _ _ _ (fun y Hy => Hincl y (or_intror Hy)) H).
Qed.

Lemma group_or_empty_incl (ic : bool) (r : regex) (s : str) (p n : nat) (m : mstate)
      (x : char) :
  search ic r s = Some (p, m) ->
  In x (group_or_empty n m) -> In x s.
Proof.
  intros H Hx.
  destruct (search_from_textual ic r s s [] 0 p m (incl_refl s) H) as [_ HG].
  unfold group_or_empty, group in Hx.
  destruct (find (fun g => fst g =? n) (groups m)) as [g|] eqn:Hf; [|contradiction].
  apply find_some in Hf. exact (HG g (proj1 Hf) x Hx).
Qed.

Lemma in_sp (x : char) : In x sp -> x = 32%N.
Proof. intros [<-|[]]. reflexivity. Qed.

Ltac split_in H :=
  repeat (first [rewrite in_app_iff in H | progress cbn [In] in H]);
  repeat match type of H with _ \/ _ => destruct H as [H|H] end.

Lemma mobile_try_incl (cleaned out : str) (brand : string) (x : char) :
  mobile_try cleaned brand = Some out ->
  In x out -> In x cleaned \/ x = 32%N.
Proof.
  unfold mobile_try.
  destruct (search true (mobile_pattern brand) cleaned) as [[p m]|] eqn:H;
    [|discriminate].
  cbv zeta. intros [= <-] Hx. apply strip_incl in Hx.
  split_in Hx; try (now right);
    try (left; exact (group_or_empty_incl _ _ _ _ _ _ _ H Hx)).
  apply sub_incl in Hx. destruct Hx as [[]|Hx].
  apply strip_incl in Hx. left. exact (group_or_empty_incl _ _ _ _ _ _ _ H Hx).
Qed.

Lemma laptop_try_incl (cleaned out : str) (brand : string) (x : char) :
  laptop_try cleaned brand = Some out ->
  In x out -> In x cleaned \/ x = 32%N.
Proof.
  unfold laptop_try.
  destruct (search true (laptop_pattern brand) cleaned) as [[p m]|] eqn:H;
    [|discriminate].
  cbv zeta. intros [= <-] Hx. apply strip_incl in Hx.
  split_in Hx; try (now right);
    try (left; exact (group_or_empty_incl _ _ _ _ _ _ _ H Hx)).
  - apply strip_incl in Hx. left. exact (group_or_empty_incl _ _ _ _ _ _ _ H Hx).
  - destruct (search true re_ram cleaned) as [[q rm]|] eqn:Hr; [|contradiction].
    left. exact (group_or_empty_incl _ _ _ _ _ _ _ Hr Hx).
  - destruct (search true re_storage cleaned) as [[q sm]|] eqn:Hs; [|contradiction].
    left. exact (group_or_empty_incl _ _ _ _ _ _ _ Hs Hx).
Qed.

Lemma first_brand_incl (try : str -> string -> option str) (x : char) :
  (forall cleaned out brand,
      try cleaned brand = Some out -> In x out -> In x cleaned \/ x = 32%N) ->
  forall brands cleaned,
    In x (first_brand try brands cleaned) -> In x cleaned \/ x = 32%N.
Proof.
  intros Htry. induction brands as [|brand rest IH]; intros cleaned H; simpl in H.
  - now left.
  - destruct (try cleaned brand) as [out|] eqn:Ht; [|exact (IH _ H)].
    exact (Htry _ _ _ Ht H).
Qed.

(** The brand branches and the final clean-up keep characters of the text
    they are given, and spaces. *)
Lemma rebuild_incl (cleaned : str) (x : char) :
  In x (strip (sub false re_spaces sp
                 (first_brand laptop_try laptop_brands
                    (first_brand mobile_try mobile_brands cleaned)))) ->
  In x cleaned \/ x = 32%N.
Proof.
  intros H. apply strip_incl, sub_incl in H.
  destruct H as [H|H]; [right; exact (in_sp _ H)|].
  apply (first_brand_incl laptop_try x (fun c o b => laptop_try_incl c o b x)) in H.
  destruct H as [H|H]; [|now right].
  exact (first_brand_incl mobile_try x (fun c o b => mobile_try_incl c o b x) _ _ H).
Qed.

Lemma strip_garbage_incl (title : str) (x : char) :
  In x (strip_garbage title) -> In x title.
Proof.
  unfold strip_garbage. generalize garbage_patterns as patterns. intros patterns.
  revert title. induction patterns as [|pat rest IH]; intros title H; simpl in H.
  - exact H.
  - apply IH in H. apply sub_incl in H. now destruct H as [[]|H].
Qed.

Lemma normalise_incl (cleaned : str) (x : char) :
  In x (normalise cleaned) -> In x cleaned \/ x = 32%N.
Proof.
  unfold normalise. intros H.
  apply strip_incl, sub_incl in H. destruct H as [[]|H].
  apply sub_incl in H. destruct H as [H|H]; [right; exact (in_sp _ H)|].
  apply sub_incl in H. destruct H as [H|H]; [right; exact (in_sp _ H) | now left].
Qed.

(** X4. The extractor invents nothing: every character of its output is a
    character of the title or a plain space. *)
Theorem extractor_keeps_title_characters (title : str) (x : char) :
  In x (clean_title_with_regex title) -> In x title \/ x = 32%N.
Proof.
  unfold clean_title_with_regex. cbv zeta. intros H.
  apply rebuild_incl in H. destruct H as [H|H]; [|now right].
  apply normalise_incl in H. destruct H as [H|H]; [|now right].
  left. exact (strip_garbage_incl _ _ H).
Qed.

Lemma extractor_keeps_title_characters_witness :
  In 71%N (of_string "Samsung Galaxy A15 8GB/256GB PTA Approved") \/ 71%N = 32%N.
Proof.
  apply (extractor_keeps_title_characters
           (of_string "Samsung Galaxy A15 8GB/256GB PTA Approved") 71%N).
  vm_compute. intuition.
Defined.

(** ** Separators *)

Lemma separator_matches (c : char) :
  set_matches false false [CChar 124%N; CChar 8226%N; CChar 45%N; CChar 95%N] c
    = is_separator c.
Proof.
  unfold set_matches, set_has, is_separator. cbn [existsb item_has].
  rewrite orb_false_r, !orb_assoc.
  now rewrite (N.eqb_sym 124), (N.eqb_sym 8226), (N.eqb_sym 45), (N.eqb_sym 95).
Qed.

(** A greedy [+] over a character set matches wherever a character of the
    set stands. *)
Lemma plus_set_refuses (ic neg : bool) (items : list citem) (bef : str)
      (c : char) (tl : str) (p : nat) :
  match_at ic (plus (Set_ neg items)) false bef (c :: tl) p = None ->
  set_matches ic neg items c = false.
Proof.
  unfold match_at, plus. cbn [run andb]. rewrite rep_loop_eq. cbv zeta.
  cbn [Nat.add Nat.ltb Nat.leb under]. cbn [run]. unfold one_char at 1. cbn [after].
  destruct (set_matches ic neg items c); [|reflexivity].
  rewrite rep_loop_eq. cbv zeta. cbn [Nat.ltb Nat.leb andb].
  unfold or_else.
  match goal with |- match ?b with _ => _ end = None -> _ => destruct b end;
    discriminate.
Qed.

Lemma sub_separators_from (x : char) :
  forall aft bef p skip,
    In x (sub_from false re_separators sp bef aft p skip) ->
    is_separator x = false.
Proof.
  induction aft as [|c tl IH]; intros bef p skip H; cbn [sub_from] in H.
  - destruct skip; [|contradiction].
    rewrite (match_at_short false re_separators false bef [] p) in H by (simpl; lia).
    contradiction.
  - destruct skip as [|n]; [|exact (IH _ _ _ H)].
    destruct (match_at false re_separators false bef (c :: tl) p) as [st'|] eqn:Hm.
    + pose proof (match_at_moves false re_separators false bef (c :: tl) p st'
                                  (le_n 1) Hm) as Hmove.
      replace (pos st' =? p) with false in H by (symmetry; apply Nat.eqb_neq; lia).
      apply in_app_or in H. destruct H as [H|H]; [|exact (IH _ _ _ H)].
      apply in_sp in H. now subst x.
    + apply plus_set_refuses in Hm. rewrite separator_matches in Hm.
      destruct H as [<-|H]; [exact Hm | exact (IH _ _ _ H)].
Qed.

(** X5. The extractor's output holds none of the separators "|", "•", "-"
    and "_": the clean-up turns every run of them into a space, and nothing
    after it brings one back. *)
Theorem extractor_output_has_no_separator (title : str) (x : char) :
  In x (clean_title_with_regex title) -> is_separator x = false.
Proof.
  unfold clean_title_with_regex. cbv zeta. intros H.
  apply rebuild_incl in H. destruct H as [H|H]; [|now subst x].
  unfold normalise in H. apply strip_incl, sub_incl in H.
  destruct H as [[]|H]. exact (sub_separators_from x _ _ _ _ H).
Qed.

Lemma extractor_output_has_no_separator_witness :
  is_separator 71%N = false.
Proof.
  apply (extractor_output_has_no_separator
           (of_string "Samsung Galaxy-A15 | 8GB_256GB") 71%N).
  vm_compute. intuition.
Defined.

(** ** What the AI cleaner returns *)

Lemma strip_ends (s : str) :
  (forall c tl, strip s = c :: tl -> is_space c = false) /\
  (forall pre c, strip s = pre ++ [c] -> is_space c = false).
Proof.
  unfold strip. split.
  - intros c tl H. destruct (rstrip_prefix (lstrip s)) as [post Hp].
    rewrite H in Hp. exact (lstrip_head s c (tl ++ post) Hp).
  - intros pre c H. exact (rstrip_last _ _ _ H).
Qed.

(** X6. A string returned by [clean_title_with_ai] holds no double and no
    single quote and neither starts nor ends with whitespace. *)
Theorem ai_cleaned_is_unquoted_and_stripped
        (E : env) (title : str) (w w' : world) (v : str) :
  clean_title_with_ai E title w = (Ok (Some v), w') ->
  ~ In 34%N v /\ ~ In 39%N v /\
  (forall c tl, v = c :: tl -> is_space c = false) /\
  (forall pre c, v = pre ++ [c] -> is_space c = false).
Proof.
  intros H. destruct (AI_ENABLED E) eqn:HE.
  2:{ rewrite clean_title_with_ai_disabled in H by assumption. discriminate. }
  rewrite clean_title_with_ai_enabled in H by assumption.
  injection H as Hv _.
  destruct (generate_content E _ _) as [text| |]; try discriminate.
  simpl in Hv. injection Hv as <-.
  split; [|split].
  - intros Hin. apply strip_incl in Hin. unfold remove_char in Hin.
    apply filter_In in Hin. destruct Hin as [Hin _].
    apply filter_In in Hin. destruct Hin as [_ Hne]. discriminate.
  - intros Hin. apply strip_incl in Hin. unfold remove_char in Hin.
    apply filter_In in Hin. destruct Hin as [_ Hne]. discriminate.
  - apply strip_ends.
Qed.

Lemma ai_cleaned_is_unquoted_and_stripped_witness :
  ~ In 34%N (of_string "HP Pavilion 8GB") /\ ~ In 39%N (of_string "HP Pavilion 8GB").
Proof.
  destruct (ai_cleaned_is_unquoted_and_stripped
              (Env true true
                   (fun _ _ => Text (34%N :: of_string " HP 'Pavilion' 8GB " ++ [34%N; 10%N]))
                   (ticking 1))
              (of_string "HP Pavilion Sale") startup
              (log_call (Call (build_prompt (of_string "HP Pavilion Sale")) (Some 3)) startup)
              (of_string "HP Pavilion 8GB"))
    as (H1 & H2 & _).
  - vm_compute. reflexivity.
  - split; assumption.
Defined.

(** ** More on the single-title endpoint *)




(** X8. The single-title handler itself raises exactly when the request body
    is not a JSON object: its [except] block then reads a [title] that was
    never assigned. For every object body it returns a response. *)
Theorem endpoint_raises_iff_body_is_no_object (E : env) (data : json) (w : world) :
  (exists e w', clean_title_endpoint E data w = (Raise e, w')) <->
  (forall fields, data <> JObj fields).
Proof.
  split.
  - intros (e & w' & H) fields ->.
    rewrite clean_title_endpoint_object in H.
    destruct (clean_title_try E _ _ w) as [[resp|e'] w'']; discriminate.
  - intros Hno. exists UnboundLocalError, w.
    destruct data as [|b|q|s|items|fields]; try reflexivity.
    now elim (Hno fields).
Qed.






(** ** The cache over the life of the server *)

Lemma ai_value_unquoted (o : ai_outcome) (s : str) :
  ai_value o = Some s -> ~ In 34%N s /\ ~ In 39%N s.
Proof.
  destruct o as [text| |]; try discriminate. simpl. intros [= <-]. split.
  - intros Hin. apply strip_incl in Hin. unfold remove_char in Hin.
    apply filter_In in Hin. destruct Hin as [Hin _].
    apply filter_In in Hin. destruct Hin as [_ Hne]. discriminate.
  - intros Hin. apply strip_incl in Hin. unfold remove_char in Hin.
    apply filter_In in Hin. destruct Hin as [_ Hne]. discriminate.
Qed.

(** The AI cleaner touches nothing but the log of completions. *)
Lemma clean_title_with_ai_frame (E : env) (title : str) (w : world) :
  exists v w',
    clean_title_with_ai E title w = (Ok v, w') /\
    cache w' = cache w /\ hits w' = hits w /\ misses w' = misses w /\
    reads w' = reads w /\
    (forall s, v = Some s -> ~ In 34%N s /\ ~ In 39%N s) /\
    calls w' = (if AI_ENABLED E
                then calls w ++ [Call (build_prompt title) (deadline E)]
                else calls w).
Proof.
  destruct (AI_ENABLED E) eqn:HE.
  - rewrite clean_title_with_ai_enabled by assumption.
    eexists _, _. split; [reflexivity|]. repeat split; try reflexivity;
      eapply ai_value_unquoted; eassumption.
  - rewrite clean_title_with_ai_disabled by assumption.
    eexists _, _. split; [reflexivity|]. repeat split; try reflexivity; discriminate.
Qed.

Lemma cache_get_in (k : str) (v : option str) :
  forall entries, cache_get k entries = Some v -> In (k, v) entries.
Proof.
  induction entries as [|[k' v'] rest IH]; simpl; [discriminate|].
  destruct (str_eqb k' k) eqn:He.
  - apply str_eqb_eq in He. intros [= ->]. subst. now left.
  - intros H. right. exact (IH H).
Qed.

Lemma cache_get_none (k : str) :
  forall entries, cache_get k entries = None -> ~ In k (map fst entries).
Proof.
  induction entries as [|[k' v'] rest IH]; simpl; [intros _ []|].
  destruct (str_eqb k' k) eqn:He; [discriminate|].
  intros H [Hk|Hk]; [|exact (IH H Hk)].
  subst k'. rewrite str_eqb_refl in He. discriminate.
Qed.

Lemma cache_remove_in (k : str) (e : str * option str) (entries : list (str * option str)) :
  In e (cache_remove k entries) -> In e entries /\ fst e <> k.
Proof.
  unfold cache_remove. intros H. apply filter_In in H. destruct H as [Hin Hne].
  split; [exact Hin|]. intros Heq. rewrite Heq, str_eqb_refl in Hne. discriminate.
Qed.

Lemma cache_remove_length (k : str) (v : option str) :
  forall entries,
    cache_get k entries = Some v ->
    S (List.length (cache_remove k entries)) <= List.length entries.
Proof.
  induction entries as [|[k' v'] rest IH]; simpl; [discriminate|].
  destruct (str_eqb k' k) eqn:He; simpl.
  - intros _. apply le_n_S. apply filter_length_le.
  - intros H. apply le_n_S. exact (IH H).
Qed.

Lemma cache_remove_keys (k : str) :
  forall entries,
    NoDup (map fst entries) -> NoDup (map fst (cache_remove k entries)).
Proof.
  induction entries as [|[k' v'] rest IH]; simpl; intros H; [constructor|].
  inversion H as [|? ? Hnotin Hrest]; subst.
  destruct (str_eqb k' k); simpl; [exact (IH Hrest)|].
  constructor; [|exact (IH Hrest)].
  intros Hin. apply Hnotin. apply in_map_iff in Hin.
  destruct Hin as (e & He & Hin). apply cache_remove_in in Hin.
  apply in_map_iff. exists e. now split.
Qed.

Lemma firstn_keys (n : nat) :
  forall entries : list (str * option str),
    NoDup (map fst entries) -> NoDup (map fst (firstn n entries)).
Proof.
  induction n as [|n IH]; intros [|e rest] H; simpl; try constructor.
  - inversion H as [|? ? Hnotin Hrest]; subst.
    intros Hin. apply Hnotin. apply in_map_iff in Hin.
    destruct Hin as (e' & He & Hin). apply in_map_iff. exists e'.
    split; [exact He|]. rewrite <- (firstn_skipn n rest). apply in_or_app. now left.
  - inversion H; subst. now apply IH.
Qed.

Lemma in_firstn_entries (n : nat) (e : str * option str) (entries : list (str * option str)) :
  In e (firstn n entries) -> In e entries.
Proof.
  intros H. rewrite <- (firstn_skipn n entries). apply in_or_app. now left.
Qed.

(** The cached cleaner keeps the cache in order. *)
Lemma cached_clean_title_ok (E : env) (title : str) (w : world) :
  cache_ok w -> cache_ok (snd (cached_clean_title E title w)).
Proof.
  intros [Hsize Hkeys Hmiss Hvals]. unfold cached_clean_title.
  destruct (cache_get title (cache w)) as [v|] eqn:Hget.
  - pose proof (cache_remove_length title v (cache w) Hget) as Hlen.
    split; simpl.
    + lia.
    + constructor; [|now apply cache_remove_keys].
      intros Hin. apply in_map_iff in Hin. destruct Hin as (e & He & Hin).
      apply cache_remove_in in Hin. now destruct Hin.
    + lia.
    + intros k s [[= <- Hvs]|Hin].
      * apply (Hvals title s). apply cache_get_in. now rewrite <- Hvs.
      * apply cache_remove_in in Hin. exact (Hvals k s (proj1 Hin)).
  - destruct (clean_title_with_ai_frame E title (count_miss w))
      as (v & w' & -> & Hc & Hh & Hm & Hr & Hv & _).
    pose proof (firstn_le_length (maxsize - 1) (cache w)) as Hfl.
    unfold cache_put. split; cbn [snd cache misses set_cache]; rewrite Hc;
      cbn [count_miss cache misses List.length map fst].
    + unfold maxsize in *. lia.
    + constructor; [|now apply firstn_keys].
      intros Hin. apply (cache_get_none title (cache w) Hget).
      apply in_map_iff in Hin. destruct Hin as (e & He & Hin).
      apply in_map_iff. exists e. split; [exact He|].
      exact (in_firstn_entries _ _ _ Hin).
    + rewrite Hm. cbn [count_miss misses]. rewrite length_firstn. lia.
    + intros k s [[= <- Hvs]|Hin]; [exact (Hv s Hvs)|].
      exact (Hvals k s (in_firstn_entries _ _ _ Hin)).
Qed.

Lemma clean_title_endpoint_not_object (E : env) (data : json) (w : world) :
  (forall fields, data <> JObj fields) ->
  clean_title_endpoint E data w = (Raise UnboundLocalError, w).
Proof.
  intros Hno. destruct data as [|b|q|s|items|fields]; try reflexivity.
  now elim (Hno fields).
Qed.

Lemma clean_batch_world (E : env) (titles : list str) :
  forall w,
    snd (clean_batch_endpoint E titles w)
      = fold_left (fun w title => snd (ai_attempt E title w)) titles w.
Proof.
  assert (Hloop : forall w,
            snd (clean_batch E titles w)
              = fold_left (fun w title => snd (ai_attempt E title w)) titles w).
  { induction titles as [|title rest IH]; intros w; [reflexivity|].
    rewrite clean_batch_cons. simpl fold_left. rewrite <- IH.
    now destruct (clean_batch E rest _) as [[results|e] w']. }
  intros w. rewrite <- Hloop.
  unfold clean_batch_endpoint, catch, bind, ret.
  now destruct (clean_batch E titles w) as [[results|e] w'].
Qed.

Lemma test_item_eq (E : env) (title : str) (w : world) :
  test_item E title w =
    if AI_ENABLED E then
      (Ok (TestRow title
             (ai_value (generate_content E (List.length (calls w)) (build_prompt title)))
             (clean_title_with_regex title)),
       log_call (Call (build_prompt title) (deadline E)) w)
    else
      (Ok (TestRow title (Some (of_string "AI not available"))
                   (clean_title_with_regex title)), w).
Proof.
  unfold test_item, bind, catch, ret.
  destruct (AI_ENABLED E) eqn:HE; [|reflexivity].
  now rewrite clean_title_with_ai_enabled.
Qed.

Lemma test_rows_world (E : env) (titles : list str) :
  forall w, exists rows,
    test_rows E titles w =
      (Ok rows,
       if AI_ENABLED E then
         fold_left (fun w title => log_call (Call (build_prompt title) (deadline E)) w)
                   titles w
       else w) /\
    map row_original rows = titles /\
    map row_regex_cleaned rows = map clean_title_with_regex titles /\
    (AI_ENABLED E = false ->
     Forall (fun row => row_ai_cleaned row = Some (of_string "AI not available")) rows).
Proof.
  induction titles as [|title rest IH]; intros w.
  - exists []. repeat split; [now destruct (AI_ENABLED E) | constructor].
  - cbn [test_rows]. unfold bind at 1. rewrite test_item_eq.
    destruct (AI_ENABLED E) eqn:HE.
    + destruct (IH (log_call (Call (build_prompt title) (deadline E)) w))
        as (rows & Hrows & Ho & Hr & _).
      unfold bind, ret. rewrite Hrows.
      eexists. split; [reflexivity|]. simpl. rewrite Ho, Hr.
      repeat split. discriminate.
    + destruct (IH w) as (rows & Hrows & Ho & Hr & Ha).
      unfold bind, ret. rewrite Hrows.
      eexists. split; [reflexivity|]. simpl. rewrite Ho, Hr.
      repeat split. intros _. constructor; [reflexivity | now apply Ha].
Qed.

Section Closure.

Variable E : env.
Variable P : world -> Prop.

Hypothesis P_tick : forall w, P w -> P (tick w).
Hypothesis P_cached :
  AI_ENABLED E = true ->
  forall title w, P w -> P (snd (cached_clean_title E title w)).

Lemma ai_attempt_closed (title : str) (w : world) :
  P w -> P (snd (ai_attempt E title w)).
Proof.
  intros H. unfold ai_attempt. destruct (AI_ENABLED E) eqn:HE; [|exact H].
  now apply P_cached.
Qed.

Lemma world_after_closed (title : json) (w : world) :
  P w -> P (world_after E title w).
Proof.
  intros H. unfold world_after.
  destruct (truthy title); [|exact H].
  destruct title as [|b|q|s|items|fields]; try exact H; [|now apply P_tick].
  apply P_tick. unfold after_plan_a.
  destruct (AI_ENABLED E) eqn:HE; [|now apply P_tick].
  apply P_tick, P_cached; [reflexivity | now apply P_tick].
Qed.

Lemma clean_title_endpoint_closed (data : json) (w : world) :
  P w -> P (snd (clean_title_endpoint E data w)).
Proof.
  intros H. destruct data as [|b|q|s|items|fields]; try exact H.
  rewrite clean_title_endpoint_world. now apply world_after_closed.
Qed.

Lemma clean_batch_endpoint_closed (titles : list str) :
  forall w, P w -> P (snd (clean_batch_endpoint E titles w)).
Proof.
  intros w H. rewrite clean_batch_world. revert w H.
  induction titles as [|title rest IH]; intros w H; simpl; [exact H|].
  apply IH. now apply ai_attempt_closed.
Qed.

(** Every route but [/test] moves the state by clock readings and calls of
    the cached cleaner only. *)
Lemma handle_closed (req : http_request) (w : world) :
  is_get_test req = false -> P w -> P (handle E req w).
Proof.
  intros Hreq H. destruct req as [data|titles| | |]; simpl.
  - now apply clean_title_endpoint_closed.
  - now apply clean_batch_endpoint_closed.
  - exact H.
  - discriminate.
  - exact H.
Qed.

End Closure.

Lemma test_endpoint_world (E : env) (w : world) :
  snd (test_endpoint E w) =
    if AI_ENABLED E then
      fold_left (fun w title => log_call (Call (build_prompt title) (deadline E)) w)
                test_titles w
    else w.
Proof.
  unfold test_endpoint, bind, ret.
  destruct (test_rows_world E test_titles w) as (rows & -> & _). reflexivity.
Qed.

Lemma log_calls_ok (E : env) (titles : list str) :
  forall w,
    cache_ok w ->
    cache_ok (fold_left (fun w title => log_call (Call (build_prompt title) (deadline E)) w)
                        titles w).
Proof.
  induction titles as [|title rest IH]; intros w H; simpl; [exact H|].
  apply IH. destruct H as [H1 H2 H3 H4]. now split.
Qed.

Lemma handle_ok (E : env) (req : http_request) (w : world) :
  cache_ok w -> cache_ok (handle E req w).
Proof.
  intros H. destruct (is_get_test req) eqn:Hreq.
  - destruct req; try discriminate. simpl. rewrite test_endpoint_world.
    destruct (AI_ENABLED E); [now apply log_calls_ok | exact H].
  - apply handle_closed; try assumption.
    + intros w0 [H1 H2 H3 H4]. now split.
    + intros _ title w0. apply cached_clean_title_ok.
Qed.

(** X11. Whatever requests the server has handled since start-up, the cache
    holds at most 1000 entries, no title twice, never more entries than
    misses were counted, and no stored string with a quote character; so
    the health operation always reports a [cache_size] of at most 1000 that
    does not exceed [cache_misses]. *)
Theorem server_keeps_the_cache_bounded (E : env) (reqs : list http_request) :
  cache_ok (serve E reqs startup) /\
  exists h,
    health_check E (serve E reqs startup) = (Ok h, serve E reqs startup) /\
    cache_size h <= 1000 /\ cache_size h <= cache_misses h.
Proof.
  assert (Hok : forall w, cache_ok w -> cache_ok (serve E reqs w)).
  { unfold serve. induction reqs as [|req rest IH]; intros w H; simpl; [exact H|].
    apply IH. now apply handle_ok. }
  assert (H0 : cache_ok startup).
  { split; simpl; [unfold maxsize; lia | constructor | lia | intros k s []]. }
  pose proof (Hok startup H0) as H. split; [exact H|].
  eexists. split; [reflexivity|]. simpl.
  destruct H as [H1 _ H3 _]. split; [exact H1 | exact H3].
Qed.

(** X12. With the AI switched off at start-up, no sequence of requests ever
    issues a completion or touches the cache: the log of completions and the
    cache stay empty and both counters stay at zero. *)
Theorem disabled_server_never_calls_the_provider (E : env) (reqs : list http_request) :
  AI_ENABLED E = false ->
  calls (serve E reqs startup) = [] /\
  cache (serve E reqs startup) = [] /\
  hits (serve E reqs startup) = 0 /\
  misses (serve E reqs startup) = 0.
Proof.
  intros HE.
  set (P := fun w => calls w = [] /\ cache w = [] /\ hits w = 0 /\ misses w = 0).
  assert (Hstep : forall req w, P w -> P (handle E req w)).
  { intros req w H. destruct (is_get_test req) eqn:Hreq.
    - destruct req; try discriminate. simpl. rewrite test_endpoint_world, HE. exact H.
    - apply handle_closed; try assumption.
      + intros w0 H0. exact H0.
      + rewrite HE. discriminate. }
  assert (Hall : forall w, P w -> P (serve E reqs w)).
  { unfold serve. induction reqs as [|req rest IH]; intros w H; simpl; [exact H|].
    apply IH. now apply Hstep. }
  apply Hall. unfold P. repeat split.
Qed.

Lemma disabled_server_never_calls_the_provider_witness :
  calls (serve env_off [PostCleanTitle (request "Nokia 105 Original"); GetTest;
                        PostCleanBatch [of_string "HP Pavilion Sale"]; GetHealth]
               startup) = [].
Proof.
  exact (proj1 (disabled_server_never_calls_the_provider env_off _ eq_refl)).
Defined.








(** ** Eviction *)

Lemma cache_get_not_in (k : str) :
  forall entries, ~ In k (map fst entries) -> cache_get k entries = None.
Proof.
  induction entries as [|[k' v'] rest IH]; simpl; intros H; [reflexivity|].
  destruct (str_eqb k' k) eqn:He.
  - apply str_eqb_eq in He. elim H. now left.
  - apply IH. intros Hin. apply H. now right.
Qed.

Lemma cache_get_app_other (k k' : str) (v' : option str) :
  forall entries,
    k <> k' ->
    cache_get k (entries ++ [(k', v')]) = cache_get k entries.
Proof.
  induction entries as [|[k0 v0] rest IH]; simpl; intros Hne.
  - destruct (str_eqb k' k) eqn:He; [|reflexivity].
    apply str_eqb_eq in He. congruence.
  - destruct (str_eqb k0 k); [reflexivity | now apply IH].
Qed.

(** X15. When the cache is full and a new title misses, the least recently
    used entry (the last one) is dropped and nothing else: the cache stays
    at 1000 entries, the new title is in, the dropped title is out, and every
    other title is found as before. *)
Theorem full_cache_evicts_least_recently_used
        (E : env) (title : str) (w : world)
        (older : list (str * option str)) (k_old : str) (v_old : option str) :
  AI_ENABLED E = true ->
  cache w = older ++ [(k_old, v_old)] ->
  List.length (cache w) = maxsize ->
  NoDup (map fst (cache w)) ->
  cache_get title (cache w) = None ->
  let w' := snd (cached_clean_title E title w) in
  List.length (cache w') = maxsize /\
  cache_get title (cache w') <> None /\
  cache_get k_old (cache w') = None /\
  (forall k, k <> k_old -> k <> title ->
             cache_get k (cache w') = cache_get k (cache w)).
Proof.
  intros HE Hsplit Hlen Hkeys Hget w'. subst w'.
  rewrite (cached_clean_title_miss E title w HE Hget). cbn [snd cache set_cache].
  unfold cache_put. rewrite Hsplit in *.
  rewrite length_app in Hlen. simpl in Hlen.
  replace (maxsize - 1) with (List.length older + 0) by lia.
  rewrite firstn_app_2. cbn [firstn]. rewrite app_nil_r.
  assert (Htitle : title <> k_old).
  { intros ->. apply (cache_get_none k_old _ Hget).
    rewrite map_app. apply in_or_app. right. now left. }
  assert (Hold : ~ In k_old (map fst older)).
  { rewrite map_app in Hkeys. simpl in Hkeys.
    apply NoDup_remove_2 in Hkeys. now rewrite app_nil_r in Hkeys. }
  split; [simpl; lia|]. split; [|split].
  - simpl. rewrite str_eqb_refl. discriminate.
  - simpl. destruct (str_eqb title k_old) eqn:He.
    + apply str_eqb_eq in He. contradiction.
    + now apply cache_get_not_in.
  - intros k Hk1 Hk2. simpl. destruct (str_eqb title k) eqn:He.
    + apply str_eqb_eq in He. congruence.
    + symmetry. now apply cache_get_app_other.
Qed.

(** ** The batch endpoint without the AI, and without the clock *)



Lemma cached_clean_title_calls_length (E : env) (title : str) (w : world) :
  List.length (calls (snd (cached_clean_title E title w))) <= S (List.length (calls w)).
Proof.
  destruct (cached_clean_title_calls E title w) as [->| ->]; [lia|].
  rewrite length_app. simpl. lia.
Qed.

(** X17. The batch operation has no time budget: it never reads the clock,
    whatever the flag and the provider do, and it issues at most one
    completion per title of the batch. *)
Theorem batch_never_reads_the_clock (E : env) (titles : list str) (w : world) :
  reads (snd (clean_batch_endpoint E titles w)) = reads w /\
  List.length (calls (snd (clean_batch_endpoint E titles w)))
    <= List.length (calls w) + List.length titles.
Proof.
  rewrite clean_batch_world. revert w.
  induction titles as [|title rest IH]; intros w; simpl; [split; lia|].
  destruct (IH (snd (ai_attempt E title w))) as [Hr Hc].
  assert (Hstep : reads (snd (ai_attempt E title w)) = reads w /\
                  List.length (calls (snd (ai_attempt E title w)))
                    <= S (List.length (calls w))).
  { unfold ai_attempt. destruct (AI_ENABLED E); [|simpl; split; lia].
    split; [apply cached_clean_title_reads | apply cached_clean_title_calls_length]. }
  destruct Hstep as [Hr1 Hc1]. split; [congruence | lia].
Qed.

Lemma full_cache_keys : NoDup (map fst full_cache).
Proof.
  unfold full_cache. rewrite map_map. cbn [fst].
  generalize (seq_NoDup 1000 0). generalize (seq 0 1000) as l.
  induction l as [|n l IH]; intros H; [constructor|].
  inversion H as [|? ? Hn Hl]; subst. simpl. constructor; [|exact (IH Hl)].
  intros Hin. apply in_map_iff in Hin. destruct Hin as (m & [= Hm] & Hin).
  apply Nat2N.inj in Hm. now subst m.
Qed.

Lemma full_cache_evicts_least_recently_used_witness :
  List.length (cache (snd (cached_clean_title env_failing (of_string "Nokia 105") full_world)))
    = 1000 /\
  cache_get [999%N]
            (cache (snd (cached_clean_title env_failing (of_string "Nokia 105") full_world)))
    = None.
Proof.
  destruct (full_cache_evicts_least_recently_used
              env_failing (of_string "Nokia 105") full_world
              (map (fun n => ([N.of_nat n], None)) (seq 0 999)) [999%N] None)
    as (H1 & _ & H3 & _);
    [ reflexivity | vm_compute; reflexivity | vm_compute; reflexivity
    | exact full_cache_keys | vm_compute; reflexivity | ].
  split; [exact H1 | exact H3].
Defined.

Lemma cache_get_remove_other (k title : str) :
  forall entries,
    k <> title ->
    cache_get k (cache_remove title entries) = cache_get k entries.
Proof.
  induction entries as [|[k0 v0] rest IH]; simpl; intros Hne; [reflexivity|].
  destruct (str_eqb k0 title) eqn:Het; simpl.
  - apply str_eqb_eq in Het. subst k0.
    destruct (str_eqb title k) eqn:He; [|now apply IH].
    apply str_eqb_eq in He. congruence.
  - destruct (str_eqb k0 k); [reflexivity | now apply IH].
Qed.

(** X18. Below capacity, a call of the cached cleaner changes the entry of
    no other title, and afterwards its own title maps to the value the call
    returned, be it a hit or a miss. *)
Theorem cached_call_keeps_the_other_entries (E : env) (title : str) (w : world) :
  List.length (cache w) < maxsize ->
  exists v w',
    cached_clean_title E title w = (Ok v, w') /\
    cache_get title (cache w') = Some v /\
    forall k, k <> title -> cache_get k (cache w') = cache_get k (cache w).
Proof.
  intros Hlen. unfold cached_clean_title.
  destruct (cache_get title (cache w)) as [v|] eqn:Hget.
  - eexists _, _. split; [reflexivity|]. simpl. rewrite str_eqb_refl.
    split; [reflexivity|]. intros k Hk.
    destruct (str_eqb title k) eqn:He.
    + apply str_eqb_eq in He. congruence.
    + now apply cache_get_remove_other.
  - destruct (clean_title_with_ai_frame E title (count_miss w))
      as (v & w' & -> & Hc & _).
    eexists _, _. split; [reflexivity|]. cbn [cache set_cache]. rewrite Hc.
    cbn [count_miss cache]. unfold cache_put.
    rewrite firstn_all2 by (unfold maxsize in *; lia).
    simpl. rewrite str_eqb_refl. split; [reflexivity|]. intros k Hk.
    destruct (str_eqb title k) eqn:He; [|reflexivity].
    apply str_eqb_eq in He. congruence.
Qed.

Lemma cached_call_keeps_the_other_entries_witness :
  exists v w',
    cached_clean_title (env_answering "HP Pavilion 8GB" 1) (of_string "HP Pavilion Sale")
                       startup = (Ok v, w') /\
    cache_get (of_string "HP Pavilion Sale") (cache w') = Some v.
Proof.
  destruct (cached_call_keeps_the_other_entries
              (env_answering "HP Pavilion 8GB" 1) (of_string "HP Pavilion Sale") startup)
    as (v & w' & H & Hg & _).
  - unfold maxsize. simpl. lia.
  - exists v, w'. split; assumption.
Defined.

(** ** Currency sign and decoration glyphs *)

(** A substitution by a pattern that matches wherever a [bad] character
    stands, and never the empty text, leaves no [bad] character of the
    text behind. *)
Lemma sub_from_drops (ic : bool) (r : regex) (repl : str) (bad : char -> bool) :
  1 <= min_len r ->
  (forall bef c tl p, match_at ic r false bef (c :: tl) p = None -> bad c = false) ->
  forall aft bef p skip x,
    In x (sub_from ic r repl bef aft p skip) ->
    In x repl \/ (In x aft /\ bad x = false).
Proof.
  intros Hmin Hbad.
  induction aft as [|c tl IH]; intros bef p skip x H; cbn [sub_from] in H.
  - destruct skip; [|contradiction].
    rewrite (match_at_short ic r false bef [] p) in H by (simpl; lia).
    contradiction.
  - assert (Hrec : forall n, In x (sub_from ic r repl (c :: bef) tl (S p) n) ->
                             In x repl \/ (In x (c :: tl) /\ bad x = false)).
    { intros n Hn. destruct (IH _ _ _ _ Hn) as [Hr|[Hi Hb]]; [now left|].
      right. split; [now right | exact Hb]. }
    destruct skip as [|n]; [|exact (Hrec _ H)].
    destruct (match_at ic r false bef (c :: tl) p) as [st'|] eqn:Hm.
    + pose proof (match_at_moves ic r false bef (c :: tl) p st' Hmin Hm) as Hmove.
      replace (pos st' =? p) with false in H by (symmetry; apply Nat.eqb_neq; lia).
      apply in_app_or in H. destruct H as [H|H]; [now left | exact (Hrec _ H)].
    + apply Hbad in Hm. destruct H as [<-|H]; [|exact (Hrec _ H)].
      right. split; [now left | exact Hm].
Qed.

Lemma alt_lit_refuses (ic : bool) (x : char) (b : regex) (bef : str)
      (c : char) (tl : str) (p : nat) :
  match_at ic (Alt (Lit x) b) false bef (c :: tl) p = None ->
  lit_matches ic x c = false.
Proof.
  unfold match_at. cbn [run andb]. unfold one_char. cbn [after].
  destruct (lit_matches ic x c); [discriminate | reflexivity].
Qed.

(** X19. The extractor's output holds no rupee sign and none of the
    decoration glyphs (the star, the black star, the check mark and the
    heavy check mark): the noise patterns delete every one of them, and no
    later step brings one back. *)
Theorem extractor_output_has_no_rupee_or_glyph (title : str) (x : char) :
  In x (clean_title_with_regex title) -> is_rupee_or_glyph x = false.
Proof.
  unfold clean_title_with_regex. cbv zeta. intros H.
  apply rebuild_incl in H. destruct H as [H|H]; [|now subst x].
  apply normalise_incl in H. destruct H as [H|H]; [|now subst x].
  unfold strip_garbage, garbage_patterns in H. cbn [fold_left] in H.
  apply sub_incl in H. destruct H as [[]|H].
  apply sub_incl in H. destruct H as [[]|H].
  apply sub_from_drops
    with (bad := fun c => (c =? 11088)%N || (c =? 9733)%N || (c =? 10003)%N
                          || (c =? 10004)%N) in H.
  - destruct H as [[]|[H Hglyph]].
    apply sub_from_drops with (bad := fun c => (c =? 8377)%N) in H.
    + destruct H as [[]|[_ Hrupee]].
      unfold is_rupee_or_glyph. rewrite Hrupee. exact Hglyph.
    + reflexivity.
    + intros bef c tl p Hm. cbn [alts] in Hm. apply alt_lit_refuses in Hm.
      unfold lit_matches in Hm. change (to_lower 8377%N) with 8377%N in Hm.
      destruct (c =? 8377)%N eqn:Hc; [|reflexivity].
      apply N.eqb_eq in Hc. subst c. discriminate Hm.
  - reflexivity.
  - intros bef c tl p Hm. apply plus_set_refuses in Hm.
    unfold set_matches, set_has in Hm. cbn [existsb item_has] in Hm.
    apply orb_false_iff in Hm. destruct Hm as [Hlow _].
    rewrite orb_false_r in Hlow.
    destruct (is_upper c) eqn:Hup.
    + unfold is_upper, between in Hup. apply andb_true_iff in Hup.
      destruct Hup as [_ Hle]. apply N.leb_le in Hle.
      repeat (apply orb_false_iff; split); apply N.eqb_neq; lia.
    + unfold to_lower in Hlow. rewrite Hup in Hlow.
      rewrite (N.eqb_sym 11088), (N.eqb_sym 9733), (N.eqb_sym 10003),
              (N.eqb_sym 10004) in Hlow.
      rewrite !orb_assoc in Hlow. exact Hlow.
Qed.

Lemma extractor_output_has_no_rupee_or_glyph_witness :
  is_rupee_or_glyph 71%N = false.
Proof.
  apply (extractor_output_has_no_rupee_or_glyph
           (of_string "Samsung Galaxy A15" ++ [32%N; 8377%N; 32%N; 11088%N; 11088%N]) 71%N).
  vm_compute. intuition.
Defined.
